(** * The patch engine of [src/core/patch.py], embedded and verified.

    The development follows the source file top to bottom: the data
    classes, the [Parser] class with its [while] loops, the context
    locator [find_context], the commit builder ([_get_updated_file],
    [patch_to_commit]) and the applicator [process_patch].

    Modelling conventions.
    - A Python [str] is a [string]; its characters are read as code points
      below 256.  [splitlines] breaks at every line boundary of that range.
    - A Python [dict] is an association list in insertion order (the order
      in which [items()] yields), with in-place replacement of a key that
      is already present.
    - Line numbers and offsets are natural numbers, as at the only call
      site of the locator, which passes the offset 0.
    - A raised exception is the [Raise] outcome.  A [while] loop takes a
      budget of iterations; exhausting it is the [OutOfFuel] outcome, which
      is neither a value nor an exception.
    - The three injected operations are functions on an abstract world;
      every invocation is recorded in a log of events. *)

From Stdlib Require Import Strings.String Strings.Ascii.
From Stdlib Require Import Lists.List Arith.Arith Arith.PeanoNat Bool.Bool Lia.
Import ListNotations.

Open Scope string_scope.
Open Scope nat_scope.
Open Scope list_scope.

(** ** Python strings *)

Module Str.

(** The line feed, written [\n] in the source. *)
Definition LF : string := String (ascii_of_nat 10) EmptyString.

(** [s.startswith(p)]. *)
Definition startswith (s p : string) : bool := String.prefix p s.

(** [s[n:]]. *)
Fixpoint drop (n : nat) (s : string) : string :=
  match n, s with
  | 0, _ => s
  | S _, EmptyString => EmptyString
  | S m, String _ r => drop m r
  end.

(** [s.endswith(p)]. *)
Definition endswith (s p : string) : bool :=
  (String.length p <=? String.length s)
  && String.eqb (drop (String.length s - String.length p) s) p.

(** Truth value of a string in a condition: [if s:]. *)
Definition truthy (s : string) : bool :=
  match s with EmptyString => false | String _ _ => true end.

(** [sep.join(l)]. *)
Definition join (sep : string) (l : list string) : string :=
  String.concat sep l.

(** The line boundaries recognised by [str.splitlines] among the code
    points below 256: LF, VT, FF, CR, FS, GS, RS and NEL. *)
Definition is_linebreak (c : ascii) : bool :=
  let n := nat_of_ascii c in
  (n =? 10) || (n =? 11) || (n =? 12) || (n =? 13)
  || (n =? 28) || (n =? 29) || (n =? 30) || (n =? 133).

Definition is_cr (c : ascii) : bool := nat_of_ascii c =? 13.
Definition is_lf (c : ascii) : bool := nat_of_ascii c =? 10.

(** [acc] holds the characters of the line being read. CR LF counts as
    one boundary; a last line without boundary is kept when it is not
    empty. *)
Fixpoint splitlines_from (acc : string) (s : string) : list string :=
  match s with
  | EmptyString => if truthy acc then [acc] else []
  | String c r =>
      if is_linebreak c then
        match r with
        | String c' r' =>
            if is_cr c && is_lf c' then acc :: splitlines_from "" r'
            else acc :: splitlines_from "" r
        | EmptyString => [acc]
        end
      else splitlines_from (String.append acc (String c "")) r
  end.

(** [s.splitlines()]. *)
Definition splitlines (s : string) : list string := splitlines_from "" s.

(** The text whose lines are [l], each closed by a line feed. *)
Definition unlines (l : list string) : string :=
  String.concat "" (map (fun x => String.append x LF) l).

End Str.

(** ** Python lists: slice assignment *)

(** [l[start:stop] = ins] for indices that are not negative: both are
    clamped to the length, and a [stop] before [start] counts as [start]. *)
Definition slice_assign (l : list string) (start stop : nat)
           (ins : list string) : list string :=
  firstn start l ++ ins ++ skipn (Nat.max start stop) l.

(** ** Python dictionaries, in insertion order *)

Module Dict.

Definition t (V : Type) : Type := list (string * V).

Definition empty {V} : t V := [].

(** [k in d]. *)
Fixpoint mem {V} (k : string) (d : t V) : bool :=
  match d with
  | [] => false
  | (k', _) :: r => if String.eqb k k' then true else mem k r
  end.

(** [d[k]], [None] standing for [KeyError]. *)
Fixpoint get {V} (k : string) (d : t V) : option V :=
  match d with
  | [] => None
  | (k', v) :: r => if String.eqb k k' then Some v else get k r
  end.

(** [d[k] = v]: a present key keeps its place, a new key goes last. *)
Fixpoint set {V} (k : string) (v : V) (d : t V) : t V :=
  match d with
  | [] => [(k, v)]
  | (k', v') :: r =>
      if String.eqb k k' then (k', v) :: r else (k', v') :: set k v r
  end.

(** [del d[k]] for a key that is present. *)
Fixpoint del {V} (k : string) (d : t V) : t V :=
  match d with
  | [] => []
  | (k', v') :: r =>
      if String.eqb k k' then r else (k', v') :: del k r
  end.

End Dict.

(** ** Data model *)

Inductive ActionType : Type := ADD | DELETE | UPDATE.

(** In [FileChange] the fields [type] and [move_path] of the source are
    [fc_type] and [fc_move_path]: [PatchAction] has fields of the same
    names. *)
Record FileChange : Type := mkFileChange {
  fc_type : ActionType;
  old_content : option string;
  new_content : option string;
  fc_move_path : option string
}.

(** A [Commit] is its one field, the dictionary [changes]. *)
Definition Commit : Type := Dict.t FileChange.

Record Chunk : Type := mkChunk {
  orig_index : nat;
  del_lines : list string;
  ins_lines : list string
}.

Record PatchAction : Type := mkPatchAction {
  type : ActionType;
  new_file : option string;
  chunks : list Chunk;
  move_path : option string
}.

(** A [Patch] is its one field, the dictionary [actions]. *)
Definition Patch : Type := Dict.t PatchAction.

(** The directive at which a path error is raised. *)
Inductive Directive : Type := UpdateFile | AddFile | DeleteFile.

(** The messages of [DiffError], one constructor per [raise] site. *)
Inductive DiffError : Type :=
| IndexOutOfBounds (index len : nat)
| DuplicatePath (d : Directive) (path : string)
| MissingFile (d : Directive) (path : string)
| ParseError (line : string)
| ContextNotFound
| MalformedHeader
| InvalidActionType (path : string) (t : ActionType)
| FailedToApplyChunk (path : string).

(** Exceptions: [DiffError], the [KeyError] of a dictionary lookup, the
    [IndexError] of a list index out of range, and whatever an injected
    operation raises. *)
Inductive exn : Type :=
| EDiff (e : DiffError)
| EKey (k : string)
| EIndex
| EOp (msg : string).

Inductive Outcome (A : Type) : Type :=
| Ret (a : A)
| Raise (e : exn)
| OutOfFuel.

Arguments Ret {A} a.
Arguments Raise {A} e.
Arguments OutOfFuel {A}.

Definition bind {A B} (m : Outcome A) (k : A -> Outcome B) : Outcome B :=
  match m with
  | Ret a => k a
  | Raise e => Raise e
  | OutOfFuel => OutOfFuel
  end.

Notation "x <- m ;; k" := (bind m (fun x => k))
  (at level 61, m at next level, right associativity).
Notation "' p <- m ;; k" := (bind m (fun p => k))
  (at level 61, p pattern, m at next level, right associativity).

(** ** The parser *)

Record Parser : Type := mkParser {
  current_files : Dict.t string;
  lines : list string;
  index : nat;
  patch : Patch;
  fuzz : nat
}.

(** [Parser(current_files, lines)]. *)
Definition new_Parser (files : Dict.t string) (ls : list string) : Parser :=
  mkParser files ls 0 Dict.empty 0.

(** [self.index += 1]. *)
Definition advance (p : Parser) : Parser :=
  mkParser (current_files p) (lines p) (S (index p)) (patch p) (fuzz p).

(** [self.patch.actions[path] = action]. *)
Definition register (p : Parser) (path : string) (a : PatchAction) : Parser :=
  mkParser (current_files p) (lines p) (index p)
           (Dict.set path a (patch p)) (fuzz p).

(** [self.lines[self.index]], read only where the index is in range. *)
Definition current (p : Parser) : string := nth (index p) (lines p) "".

Definition at_end (p : Parser) : bool :=
  List.length (lines p) <=? index p.

Definition is_done (p : Parser) (prefixes : list string) : bool :=
  if at_end p then true
  else if match prefixes with [] => false | _ => true end
          && existsb (Str.startswith (current p)) prefixes then true
  else false.

Definition startswith (p : Parser) (prefix : string) : bool :=
  if at_end p then false else Str.startswith (current p) prefix.

Definition read_str (p : Parser) (prefix : string) (return_everything : bool)
  : Outcome (string * Parser) :=
  if at_end p then
    Raise (EDiff (IndexOutOfBounds (index p) (List.length (lines p))))
  else if Str.startswith (current p) prefix then
    Ret (if return_everything then current p
         else Str.drop (String.length prefix) (current p),
         advance p)
  else Ret ("", p).

(** One line of a hunk body, already known not to be empty. *)
Definition add_line (line : string) (c : Chunk) : Chunk :=
  if Str.startswith line "-" then
    mkChunk (orig_index c) (del_lines c ++ [Str.drop 1 line]) (ins_lines c)
  else if Str.startswith line "+" then
    mkChunk (orig_index c) (del_lines c) (ins_lines c ++ [Str.drop 1 line])
  else if negb (Str.startswith line "@@ ") then
    mkChunk (orig_index c) (del_lines c ++ [line]) (ins_lines c ++ [line])
  else c.

(** The loop [while not self.is_done(["@@ ", "*** "])] that fills one
    chunk.  The source appends the chunk object to [action.chunks] before
    filling it; nothing reads the list in between, so the filled chunk is
    appended once the loop is over. *)
Fixpoint parse_chunk (fuel : nat) (p : Parser) (c : Chunk)
  : Outcome (Chunk * Parser) :=
  match fuel with
  | 0 => OutOfFuel
  | S fuel' =>
      if is_done p ["@@ "; "*** "] then Ret (c, p)
      else
        '(line, p1) <- read_str p "" true ;;
        if negb (Str.truthy line) then Ret (c, p1)
        else parse_chunk fuel' p1 (add_line line c)
  end.

Definition add_chunk (a : PatchAction) (c : Chunk) : PatchAction :=
  mkPatchAction (type a) (new_file a) (chunks a ++ [c]) (move_path a).

(** The loop [while not self.is_done(["*** "])] of [parse_update_file]. An
    iteration at a line that does not start with ["@@ "] changes nothing. *)
Fixpoint parse_update_loop (fuel : nat) (p : Parser) (a : PatchAction)
  : Outcome (PatchAction * Parser) :=
  match fuel with
  | 0 => OutOfFuel
  | S fuel' =>
      if is_done p ["*** "] then Ret (a, p)
      else if startswith p "@@ " then
        '(c, p1) <- parse_chunk fuel' (advance p) (mkChunk 0 [] []) ;;
        parse_update_loop fuel' p1 (add_chunk a c)
      else parse_update_loop fuel' p a
  end.

Definition parse_update_file (fuel : nat) (p : Parser) (text : string)
  : Outcome (PatchAction * Parser) :=
  parse_update_loop fuel p (mkPatchAction UPDATE None [] None).

(** The loop of [parse_add_file]; [ls] is its local list [lines]. *)
Fixpoint parse_add_loop (fuel : nat) (p : Parser) (ls : list string)
  : Outcome (list string * Parser) :=
  match fuel with
  | 0 => OutOfFuel
  | S fuel' =>
      if is_done p ["*** "] then Ret (ls, p)
      else
        '(line, p1) <- read_str p "" false ;;
        parse_add_loop fuel' p1 (if Str.truthy line then ls ++ [line] else ls)
  end.

Definition parse_add_file (fuel : nat) (p : Parser)
  : Outcome (PatchAction * Parser) :=
  '(ls, p1) <- parse_add_loop fuel p [] ;;
  Ret (mkPatchAction ADD (Some (Str.join Str.LF ls)) [] None, p1).

Definition with_move_path (a : PatchAction) (m : string) : PatchAction :=
  mkPatchAction (type a) (new_file a) (chunks a) (Some m).

(** The body of the loop of [parse]: one directive with what belongs to
    it, up to the [continue], or the [raise] that ends the loop. The
    message of the last [raise] reads [self.lines[self.index]]: after a
    Delete line with an empty path that is the last line, the index is
    out of range and the read raises [IndexError]. *)
Definition parse_directive (fuel : nat) (p : Parser) : Outcome Parser :=
  '(path, p1) <- read_str p "*** Update File: " false ;;
  if Str.truthy path then
    if Dict.mem path (patch p1) then
      Raise (EDiff (DuplicatePath UpdateFile path))
    else
      '(move_to, p2) <- read_str p1 "*** Move to: " false ;;
      if negb (Dict.mem path (current_files p2)) then
        Raise (EDiff (MissingFile UpdateFile path))
      else
        match Dict.get path (current_files p2) with
        | None => Raise (EKey path)
        | Some text =>
            '(a, p3) <- parse_update_file fuel p2 text ;;
            let a' := if Str.truthy move_to then with_move_path a move_to
                      else a in
            Ret (register p3 path a')
        end
  else
    '(path, p2) <- read_str p1 "*** Add File: " false ;;
    if Str.truthy path then
      if Dict.mem path (patch p2) then
        Raise (EDiff (DuplicatePath AddFile path))
      else
        '(a, p3) <- parse_add_file fuel p2 ;;
        Ret (register p3 path a)
    else
      '(path, p3) <- read_str p2 "*** Delete File: " false ;;
      if Str.truthy path then
        if Dict.mem path (patch p3) then
          Raise (EDiff (DuplicatePath DeleteFile path))
        else if negb (Dict.mem path (current_files p3)) then
          Raise (EDiff (MissingFile DeleteFile path))
        else Ret (register p3 path (mkPatchAction DELETE None [] None))
      else if at_end p3 then Raise EIndex
      else Raise (EDiff (ParseError (current p3))).

(** The loop [while not self.is_done(["*** End Patch"])] of [parse]. *)
Fixpoint parse_loop (fuel : nat) (p : Parser) : Outcome Parser :=
  match fuel with
  | 0 => OutOfFuel
  | S fuel' =>
      if is_done p ["*** End Patch"] then Ret p
      else
        p1 <- parse_directive fuel' p ;;
        parse_loop fuel' p1
  end.

Definition parse (fuel : nat) (p : Parser) : Outcome Parser :=
  let p0 := if startswith p "*** Begin Patch" then advance p else p in
  parse_loop fuel p0.

(** ** The context locator *)

(** The verdict of the inner [for j, ctx_line in enumerate(context)] loop at
    one candidate index [i]. *)
Inductive Verdict : Type :=
| Matched                    (* the loop ran to its end with [match] true *)
| Tolerated (stop : nat)     (* [return i, i + j] from inside the loop *)
| Rejected.                  (* [match = False; break] *)

(** [n] is [len(context)] of the whole context, [context] what is left of
    it from position [j] on. *)
Fixpoint match_window (ls : list string) (eof : bool) (n i j : nat)
         (context : list string) : Verdict :=
  match context with
  | [] => Matched
  | ctx_line :: rest =>
      if List.length ls <=? i + j then
        if eof && (j =? n - 1) then Tolerated (i + j) else Rejected
      else if negb (String.eqb (nth (i + j) ls "") ctx_line) then Rejected
      else match_window ls eof n i (S j) rest
  end.

(** [for i in range(start, len(lines))], [count] candidates from [i] on. *)
Fixpoint scan (ls context : list string) (eof : bool) (count i : nat)
  : Outcome (nat * nat) :=
  match count with
  | 0 => Raise (EDiff ContextNotFound)
  | S count' =>
      match match_window ls eof (List.length context) i 0 context with
      | Tolerated stop => Ret (i, stop)
      | Matched => Ret (i, i + List.length context)
      | Rejected => scan ls context eof count' (S i)
      end
  end.

Definition find_context (ls context : list string) (start : nat) (eof : bool)
  : Outcome (nat * nat) :=
  match context with
  | [] => Ret (start, start)
  | _ :: _ => scan ls context eof (List.length ls - start) start
  end.

(** ** Entry points of the parser *)

Definition text_to_patch (fuel : nat) (text : string) (orig : Dict.t string)
  : Outcome (Patch * nat) :=
  if negb (Str.startswith text "*** Begin Patch") then
    Raise (EDiff MalformedHeader)
  else
    let ls := Str.splitlines text in
    p <- parse fuel (new_Parser orig ls) ;;
    Ret (patch p, fuzz p).

Fixpoint files_needed (ls : list string) : list string :=
  match ls with
  | [] => []
  | line :: r =>
      if Str.startswith line "*** Update File: " then
        Str.drop (String.length "*** Update File: ") line :: files_needed r
      else if Str.startswith line "*** Delete File: " then
        Str.drop (String.length "*** Delete File: ") line :: files_needed r
      else files_needed r
  end.

Definition identify_files_needed (text : string) : list string :=
  files_needed (Str.splitlines text).

Fixpoint files_added (ls : list string) : list string :=
  match ls with
  | [] => []
  | line :: r =>
      if Str.startswith line "*** Add File: " then
        Str.drop (String.length "*** Add File: ") line :: files_added r
      else files_added r
  end.

Definition identify_files_added (text : string) : list string :=
  files_added (Str.splitlines text).

(** ** The commit builder *)

(** The loop [for chunk in action.chunks]: [ls] is the list [lines], never
    modified, and [new_lines] the copy the chunks are written to. *)
Fixpoint apply_chunks (ls : list string) (path : string) (cs : list Chunk)
         (new_lines : list string) : Outcome (list string) :=
  match cs with
  | [] => Ret new_lines
  | chunk :: rest =>
      match find_context ls (del_lines chunk) 0 false with
      | Ret (start, stop) =>
          apply_chunks ls path rest
            (slice_assign new_lines start stop (ins_lines chunk))
      | Raise (EDiff _) => Raise (EDiff (FailedToApplyChunk path))
      | Raise e => Raise e
      | OutOfFuel => OutOfFuel
      end
  end.

Definition _get_updated_file (text : string) (action : PatchAction)
           (path : string) : Outcome string :=
  match type action with
  | UPDATE =>
      let ls := Str.splitlines text in
      new_lines <- apply_chunks ls path (chunks action) ls ;;
      if Str.endswith text Str.LF then
        Ret (String.append (Str.join Str.LF new_lines) Str.LF)
      else Ret (Str.join Str.LF new_lines)
  | t => Raise (EDiff (InvalidActionType path t))
  end.

Definition lookup (path : string) (orig : Dict.t string) : Outcome string :=
  match Dict.get path orig with
  | Some v => Ret v
  | None => Raise (EKey path)
  end.

(** The loop [for path, action in patch.actions.items()]. *)
Fixpoint build_changes (orig : Dict.t string)
         (actions : list (string * PatchAction)) (commit : Commit)
  : Outcome Commit :=
  match actions with
  | [] => Ret commit
  | (path, action) :: rest =>
      match type action with
      | DELETE =>
          old <- lookup path orig ;;
          build_changes orig rest
            (Dict.set path (mkFileChange DELETE (Some old) None None) commit)
      | ADD =>
          build_changes orig rest
            (Dict.set path (mkFileChange ADD None (new_file action) None)
                      commit)
      | UPDATE =>
          old <- lookup path orig ;;
          new <- _get_updated_file old action path ;;
          old' <- lookup path orig ;;
          build_changes orig rest
            (Dict.set path
               (mkFileChange UPDATE (Some old') (Some new) (move_path action))
               commit)
      end
  end.

Definition patch_to_commit (pt : Patch) (orig : Dict.t string)
  : Outcome Commit :=
  build_changes orig pt Dict.empty.

(** ** The applicator *)

(** The invocations of the injected operations, as they happen. *)
Inductive Event : Type :=
| Opened (path : string)
| Written (path content : string)
| Removed (path : string).

Section Applicator.

(** The state the injected operations act on, and the operations: each
    returns, or raises, and leaves a new state. *)
Variable World : Type.
Variable open_fn : string -> World -> Outcome string * World.
Variable write_fn : string -> string -> World -> Outcome unit * World.
Variable remove_fn : string -> World -> Outcome unit * World.

Record Sys : Type := mkSys { world : World; log : list Event }.

Definition call_open (path : string) (s : Sys) : Outcome string * Sys :=
  let (r, w) := open_fn path (world s) in
  (r, mkSys w (log s ++ [Opened path])).

Definition call_write (path content : string) (s : Sys)
  : Outcome unit * Sys :=
  let (r, w) := write_fn path content (world s) in
  (r, mkSys w (log s ++ [Written path content])).

Definition call_remove (path : string) (s : Sys) : Outcome unit * Sys :=
  let (r, w) := remove_fn path (world s) in
  (r, mkSys w (log s ++ [Removed path])).

(** [{p: open_fn(p) for p in paths}]. *)
Fixpoint read_all (paths : list string) (orig : Dict.t string) (s : Sys)
  : Outcome (Dict.t string) * Sys :=
  match paths with
  | [] => (Ret orig, s)
  | p :: rest =>
      match call_open p s with
      | (Ret v, s1) => read_all rest (Dict.set p v orig) s1
      | (Raise e, s1) => (Raise e, s1)
      | (OutOfFuel, s1) => (OutOfFuel, s1)
      end
  end.

(** [x or ""] and the truth value of an optional string. *)
Definition or_empty (x : option string) : string :=
  match x with Some s => s | None => "" end.

Definition truthy_opt (x : option string) : bool :=
  match x with Some s => Str.truthy s | None => false end.

(** The body of the loop [for path, change in commit.changes.items()]. *)
Definition apply_change (path : string) (change : FileChange) (s : Sys)
  : Outcome unit * Sys :=
  match fc_type change with
  | DELETE => call_remove path s
  | ADD => call_write path (or_empty (new_content change)) s
  | UPDATE =>
      if truthy_opt (fc_move_path change) then
        match call_write (or_empty (fc_move_path change))
                         (or_empty (new_content change)) s with
        | (Ret _, s1) => call_remove path s1
        | other => other
        end
      else call_write path (or_empty (new_content change)) s
  end.

Fixpoint apply_changes (changes : list (string * FileChange)) (s : Sys)
  : Outcome string * Sys :=
  match changes with
  | [] => (Ret "Done!", s)
  | (path, change) :: rest =>
      match apply_change path change s with
      | (Ret _, s1) => apply_changes rest s1
      | (Raise e, s1) => (Raise e, s1)
      | (OutOfFuel, s1) => (OutOfFuel, s1)
      end
  end.

Definition process_patch (fuel : nat) (text : string) (s : Sys)
  : Outcome string * Sys :=
  if negb (Str.startswith text "*** Begin Patch") then
    (Raise (EDiff MalformedHeader), s)
  else
    let paths := identify_files_needed text in
    match read_all paths Dict.empty s with
    | (Ret orig, s1) =>
        match text_to_patch fuel text orig with
        | Ret (pt, _) =>
            match patch_to_commit pt orig with
            | Ret commit => apply_changes commit s1
            | Raise e => (Raise e, s1)
            | OutOfFuel => (OutOfFuel, s1)
            end
        | Raise e => (Raise e, s1)
        | OutOfFuel => (OutOfFuel, s1)
        end
    | (Raise e, s1) => (Raise e, s1)
    | (OutOfFuel, s1) => (OutOfFuel, s1)
    end.

End Applicator.

Arguments mkSys {World} world log.
Arguments world {World} s.
Arguments log {World} s.

(** ** Notions used in the statements *)

(** The context occurs in full at index [i] of the file. *)
Definition occurs_at (ls context : list string) (i : nat) : Prop :=
  firstn (List.length context) (skipn i ls) = context.

(** The window at [i] runs past the end of the file and the last context
    line is the only one that is missing. *)
Definition overruns_at (ls context : list string) (i : nat) : Prop :=
  context <> [] /\ skipn i ls = removelast context.

(** What the locator takes for a match at the candidate index [i]. *)
Definition accepted (ls context : list string) (eof : bool) (i : nat) : Prop :=
  occurs_at ls context i \/ (eof = true /\ overruns_at ls context i).

(** [del] occurs at [i] in the file and at no index before it. *)
Definition first_at (ls del : list string) (i : nat) : Prop :=
  occurs_at ls del i /\ forall k, k < i -> ~ occurs_at ls del k.

(** The working copy [buf] after the chunks, one after the other, have
    replaced its lines at the index range where their [del_lines] first
    occur in the file [ls]. *)
Inductive spliced (ls : list string)
  : list Chunk -> list string -> list string -> Prop :=
| spliced_nil (buf : list string) : spliced ls [] buf buf
| spliced_cons (c : Chunk) (cs : list Chunk) (buf out : list string)
               (i : nat) :
    first_at ls (del_lines c) i ->
    spliced ls cs
            (firstn i buf ++ ins_lines c
                    ++ skipn (i + List.length (del_lines c)) buf) out ->
    spliced ls (c :: cs) buf out.

(** The text rebuilt from [new_lines] for the original content [text]. *)
Definition rebuilt (text : string) (new_lines : list string) : string :=
  if Str.endswith text Str.LF
  then String.append (Str.join Str.LF new_lines) Str.LF
  else Str.join Str.LF new_lines.

(** An Update action with the given chunks. *)
Definition update_of (cs : list Chunk) : PatchAction :=
  mkPatchAction UPDATE None cs None.

(** ** Sample inputs *)

(** The scenario of the specification: one file of three lines and a patch
    that replaces its second line. *)
Definition scenario_snapshot : Dict.t string :=
  [("a.py", Str.unlines ["x"; "y"; "z"])].

Definition scenario_patch : string :=
  Str.unlines ["*** Begin Patch"; "*** Update File: a.py"; "@@ ";
               "x"; "-y"; "+w"; "z"; "*** End Patch"].





(** Two hunks on a file of two lines: the first puts a new first line
    [b] before [a], the second replaces [b]. In the original [b] is the
    second line; in the working copy after the first hunk it is also the
    first one. *)
Definition shifted_chunks : list Chunk :=
  [mkChunk 0 ["a"] ["b"; "a"]; mkChunk 0 ["b"] ["X"]].

(** ** Notions about the parser *)

(** The parser [p] moved to line [i]. *)
Definition seek (p : Parser) (i : nat) : Parser :=
  mkParser (current_files p) (lines p) i (patch p) (fuzz p).

(** The parser stands after the lines [pre], before the lines [rest]. *)
Definition stands_at (p : Parser) (pre rest : list string) : Prop :=
  lines p = pre ++ rest /\ index p = List.length pre.

(** The lines a hunk body line adds to [del_lines] and to [ins_lines], in
    the words of the specification: a [-] line goes to [del_lines] without
    its marker, a [+] line to [ins_lines] without its marker, any other
    line to both, unchanged. *)
Definition to_del (line : string) : list string :=
  if Str.startswith line "-" then [Str.drop 1 line]
  else if Str.startswith line "+" then []
  else [line].

Definition to_ins (line : string) : list string :=
  if Str.startswith line "-" then []
  else if Str.startswith line "+" then [Str.drop 1 line]
  else [line].

(** A line of a hunk body that the chunk loop goes on after: it is not
    empty and starts neither a hunk nor a directive. *)
Definition hunk_line (line : string) : Prop :=
  Str.truthy line = true
  /\ Str.startswith line "@@ " = false
  /\ Str.startswith line "*** " = false.

(** What ends a hunk body: the end of the patch, a hunk header, a
    directive, or an empty line. *)
Definition hunk_end (rest : list string) : Prop :=
  match rest with
  | [] => True
  | r :: _ =>
      r = "" \/ Str.startswith r "@@ " = true
      \/ Str.startswith r "*** " = true
  end.

(** The empty line that ends a hunk body is consumed. *)
Definition consumed (rest : list string) : nat :=
  match rest with
  | r :: _ => if Str.truthy r then 0 else 1
  | [] => 0
  end.

(** What ends the body of an Add File directive. *)
Definition body_end (rest : list string) : Prop :=
  match rest with
  | [] => True
  | r :: _ => Str.startswith r "*** " = true
  end.

(** A string without line boundary, as every line of [splitlines] is. *)
Fixpoint clean (s : string) : bool :=
  match s with
  | EmptyString => true
  | String c r => negb (Str.is_linebreak c) && clean r
  end.

(** A patch that adds a file whose body has an empty line. *)
Definition add_lines : list string :=
  ["*** Begin Patch"; "*** Add File: n.txt"; "hello"; ""; "world";
   "*** End Patch"].

(** A patch with an empty line inside a hunk. *)
Definition blank_hunk_lines : list string :=
  ["*** Begin Patch"; "*** Update File: f"; "@@ "; "x"; "-y"; "+w"; "";
   "*** End Patch"].

(** The files of the test suite: a dictionary that the three operations
    read, write and delete from. *)
Definition Files : Type := Dict.t string.

Definition files_open (path : string) (w : Files) : Outcome string * Files :=
  (match Dict.get path w with
   | Some v => Ret v
   | None => Raise (EOp "FileNotFoundError")
   end, w).

Definition files_write (path content : string) (w : Files)
  : Outcome unit * Files :=
  (Ret tt, Dict.set path content w).

Definition files_remove (path : string) (w : Files) : Outcome unit * Files :=
  if Dict.mem path w then (Ret tt, Dict.del path w)
  else (Raise (EKey path), w).

Definition run_on_files (fuel : nat) (text : string) (w : Files)
  : Outcome string * Sys Files :=
  process_patch Files files_open files_write files_remove fuel text
                (mkSys w []).

(** The patch of [test_process_patch]. *)
Definition test_patch : string :=
  Str.join Str.LF ["*** Begin Patch"; "*** Update File: test.py";
                   "@@ -1,3 +1,3 @@"; "a"; "-b"; "+c"; "*** End Patch"].

(** A patch that renames the file it updates. *)
Definition rename_patch : string :=
  Str.unlines ["*** Begin Patch"; "*** Update File: a.py";
               "*** Move to: b.py"; "@@ "; "x"; "-y"; "+w"; "z";
               "*** End Patch"].

(** A text whose first line goes on after the marker. *)
Definition patchwork : string := "*** Begin Patchwork".

(** An Update body whose first line is neither a hunk header nor a
    directive. *)
Definition stuck_patch : string :=
  Str.unlines ["*** Begin Patch"; "*** Update File: a.py"; "x";
               "*** End Patch"].

(** ** Notions about directives *)

Definition directive_prefix (d : Directive) : string :=
  match d with
  | UpdateFile => "*** Update File: "
  | AddFile => "*** Add File: "
  | DeleteFile => "*** Delete File: "
  end.

(** The parser stands at the directive [d] for [path]. *)
Definition at_directive (p : Parser) (d : Directive) (path : string) : Prop :=
  at_end p = false
  /\ current p = String.append (directive_prefix d) path
  /\ Str.truthy path = true.

(** The parser at the start of the loop of [parse], for a patch text. *)
Definition start_state (orig : Dict.t string) (text : string) : Parser :=
  let p := new_Parser orig (Str.splitlines text) in
  if startswith p "*** Begin Patch" then advance p else p.

(** [reaches p q]: the loop of [parse], started at [p], comes to [q] after
    some iterations, each of which parsed a directive without error. *)
Inductive reaches : Parser -> Parser -> Prop :=
| reaches_here (p : Parser) : reaches p p
| reaches_next (p p1 q : Parser) (fuel : nat) :
    is_done p ["*** End Patch"] = false ->
    parse_directive fuel p = Ret p1 ->
    reaches p1 q ->
    reaches p q.

(** An Update with a hunk that matches nothing, and a Delete of the same
    path. *)
Definition duplicate_patch : string :=
  Str.unlines ["*** Begin Patch"; "*** Update File: a.py"; "@@ ";
               "-no such line"; "*** Delete File: a.py"; "*** End Patch"].

(** Two directives for a path that the snapshot does not hold. *)
Definition missing_duplicate_patch : string :=
  Str.unlines ["*** Begin Patch"; "*** Delete File: gone.py";
               "*** Add File: gone.py"; "*** End Patch"].

(** Two directives for one path after the end marker. *)
Definition after_end_patch : string :=
  Str.unlines ["*** Begin Patch"; "*** End Patch"; "*** Add File: n.txt";
               "*** Add File: n.txt"].

(** An Update whose hunk matches no line of the file. *)
Definition no_match_patch : string :=
  Str.unlines ["*** Begin Patch"; "*** Update File: a.py"; "@@ ";
               "-no such line"; "+w"; "*** End Patch"].

(** A rename target as the parser stores it: none, or a path that is not
    empty. *)
Definition rename_ok (m : option string) : bool :=
  match m with
  | None => true
  | Some s => Str.truthy s
  end.

(** ** Notions for the further properties *)

(** [q] is the parser [p] further on in the same input: the lines, the
    snapshot and the fuzz counter are those of [p], and the index has not
    moved back. *)
Definition follows (p q : Parser) : Prop :=
  lines q = lines p /\ current_files q = current_files p
  /\ fuzz q = fuzz p /\ index p <= index q.

(** The loop of [parse_update_file] stands at a line that it neither
    passes nor ends at. *)
Definition stuck_at (q : Parser) : Prop :=
  is_done q ["*** "] = false /\ startswith q "@@ " = false.

(** A text whose only line boundary is the line feed. *)
Fixpoint lf_only (s : string) : bool :=
  match s with
  | EmptyString => true
  | String c r => (negb (Str.is_linebreak c) || Str.is_lf c) && lf_only r
  end.

(** How a registered action comes from a line of the patch: the kind of
    the action is the kind of the directive, and the path is what follows
    the prefix of the directive. *)
Definition from_line (line path : string) (a : PatchAction) : Prop :=
  match type a with
  | UPDATE =>
      Str.startswith line "*** Update File: " = true
      /\ path = Str.drop (String.length "*** Update File: ") line
  | ADD =>
      Str.startswith line "*** Add File: " = true
      /\ path = Str.drop (String.length "*** Add File: ") line
  | DELETE =>
      Str.startswith line "*** Delete File: " = true
      /\ path = Str.drop (String.length "*** Delete File: ") line
  end.

(** A patch as the parser builds it from the lines [ls] against the
    snapshot [orig]: no path twice, every action read from a directive
    line of its kind, every path of an Update or a Delete in the
    snapshot. *)
Definition well_formed (ls : list string) (orig : Dict.t string)
           (pt : Patch) : Prop :=
  NoDup (map fst pt)
  /\ Forall (fun kv =>
               (exists line, In line ls /\ from_line line (fst kv) (snd kv))
               /\ (type (snd kv) <> ADD -> Dict.mem (fst kv) orig = true))
            pt.

(** The change that the commit builder makes of the action [a] for the
    path [k]. *)
Definition builds (orig : Dict.t string) (ka : string * PatchAction)
           (kc : string * FileChange) : Prop :=
  fst kc = fst ka
  /\ match type (snd ka) with
     | ADD => snd kc = mkFileChange ADD None (new_file (snd ka)) None
     | DELETE =>
         exists old, Dict.get (fst ka) orig = Some old
                     /\ snd kc = mkFileChange DELETE (Some old) None None
     | UPDATE =>
         exists old new,
           Dict.get (fst ka) orig = Some old
           /\ _get_updated_file old (snd ka) (fst ka) = Ret new
           /\ snd kc = mkFileChange UPDATE (Some old) (Some new)
                                    (move_path (snd ka))
     end.

(** The invocations that applying one change consists of. *)
Definition events_of (kc : string * FileChange) : list Event :=
  let (path, change) := kc in
  match fc_type change with
  | DELETE => [Removed path]
  | ADD => [Written path (or_empty (new_content change))]
  | UPDATE =>
      if truthy_opt (fc_move_path change) then
        [Written (or_empty (fc_move_path change))
                 (or_empty (new_content change));
         Removed path]
      else [Written path (or_empty (new_content change))]
  end.

(** Changes for the files of the test suite: two Adds, and a Delete. *)
Definition add_one : FileChange := mkFileChange ADD None (Some "1") None.
Definition add_two : FileChange := mkFileChange ADD None (Some "2") None.
Definition delete_gone : FileChange :=
  mkFileChange DELETE (Some "old") None None.

(** A patch that ends with an Update directive, and one with an empty
    line between its directives. *)
Definition update_last_lines : list string :=
  ["*** Begin Patch"; "*** Update File: a.py"].

Definition blank_top_lines : list string :=
  ["*** Begin Patch"; "*** Delete File: a.py"; ""; "*** End Patch"].

(** The lines of the input that the parser has not passed. *)
Definition remaining (p : Parser) : nat :=
  List.length (lines p) - index p.

(** The prefixes that the loop of [parse] knows a line by. *)
Definition top_level_prefixes : list string :=
  ["*** End Patch"; "*** Update File: "; "*** Add File: ";
   "*** Delete File: "].

(** An Update directive followed by an empty line. *)
Definition blank_body_lines : list string :=
  ["*** Begin Patch"; "*** Update File: a.py"; ""; "@@ "; "x";
   "*** End Patch"].

(** A chunk that replaces lines of the file by themselves. *)
Definition keeps (ls : list string) (c : Chunk) : Prop :=
  ins_lines c = del_lines c /\ exists k, occurs_at ls (del_lines c) k.

(** A file of two lines closed by line feeds, and the same lines closed
    by carriage return and line feed. *)
Definition lf_text : string := Str.unlines ["a"; "b"].

Definition crlf_text : string :=
  String.append "a"
    (String (ascii_of_nat 13)
       (String (ascii_of_nat 10)
          (String.append "b"
             (String (ascii_of_nat 13) (String (ascii_of_nat 10) ""))))).

(** The parser [p] with another snapshot, and an outcome carried over to
    that snapshot. *)
Definition with_files (cf : Dict.t string) (p : Parser) : Parser :=
  mkParser cf (lines p) (index p) (patch p) (fuzz p).

Definition over_files (cf : Dict.t string) (r : Outcome Parser)
  : Outcome Parser :=
  match r with
  | Ret q => Ret (with_files cf q)
  | Raise e => Raise e
  | OutOfFuel => OutOfFuel
  end.

(** A patch that adds a file under the path of a file of the snapshot. *)
Definition add_over_lines : list string :=
  ["*** Begin Patch"; "*** Add File: a.py"; "new"; "*** End Patch"].

(** A patch, as a value, that deletes a file that the snapshot does not
    hold. *)
Definition delete_unknown : Patch :=
  [("gone.py", mkPatchAction DELETE None [] None)].

(** * Theorems *)

(** ** Lists and strings *)

Lemma skipn_cons_nth (ls : list string) :
  forall i, i < List.length ls -> skipn i ls = nth i ls "" :: skipn (S i) ls.
Proof.
  induction ls as [|a ls IH]; simpl; intros i H; [lia|].
  destruct i as [|i]; [reflexivity|].
  apply IH; lia.
Qed.

Lemma removelast_nil_inv (c : string) (rest : list string) :
  removelast (c :: rest) = [] -> rest = [].
Proof. destruct rest; simpl; [reflexivity|discriminate]. Qed.

Lemma removelast_cons2 (c : string) (rest : list string) :
  rest <> [] -> removelast (c :: rest) = c :: removelast rest.
Proof. destruct rest; [congruence|reflexivity]. Qed.

Lemma length_removelast_cons (c : string) (rest : list string) :
  List.length (removelast (c :: rest)) = List.length rest.
Proof.
  revert c; induction rest as [|d rest IH]; intro c; [reflexivity|].
  rewrite removelast_cons2 by discriminate. simpl. f_equal. apply IH.
Qed.

(** ** The context locator *)

Section Locator.

Variable ls : list string.
Variable eof : bool.

(** What each verdict of the inner loop means, from position [j] on. *)
Lemma match_window_sound (n i : nat) :
  forall context j,
    n = j + List.length context -> i + j <= List.length ls ->
    match match_window ls eof n i j context with
    | Matched => firstn (List.length context) (skipn (i + j) ls) = context
    | Tolerated stop =>
        eof = true /\ stop = List.length ls /\ context <> []
        /\ skipn (i + j) ls = removelast context
    | Rejected =>
        firstn (List.length context) (skipn (i + j) ls) <> context
        /\ ~ (eof = true /\ context <> []
              /\ skipn (i + j) ls = removelast context)
    end.
Proof.
  induction context as [|c rest IH]; intros j Hn Hj; simpl; [reflexivity|].
  destruct (List.length ls <=? i + j) eqn:Hend.
  - apply Nat.leb_le in Hend.
    assert (Hnil : skipn (i + j) ls = []) by (apply skipn_all2; lia).
    destruct (eof && (j =? n - 1)) eqn:Htol.
    + apply andb_true_iff in Htol as [He Hlast].
      apply Nat.eqb_eq in Hlast. simpl in Hn.
      assert (rest = []) by (destruct rest; [reflexivity|simpl in Hn; lia]).
      subst rest. rewrite Hnil.
      repeat split; try assumption; try lia; discriminate.
    + rewrite Hnil. split; [destruct (List.length rest); discriminate|].
      intros (He & _ & Hr). symmetry in Hr.
      apply removelast_nil_inv in Hr. subst rest eof. simpl in *.
      apply Nat.eqb_neq in Htol. lia.
  - apply Nat.leb_gt in Hend.
    rewrite (skipn_cons_nth ls (i + j) Hend).
    destruct (String.eqb (nth (i + j) ls "") c) eqn:Hc; cbn [negb].
    + apply String.eqb_eq in Hc. rewrite Hc.
      specialize (IH (S j)). simpl in Hn.
      replace (i + S j) with (S (i + j)) in IH by lia.
      assert (H1 : n = S j + List.length rest) by lia.
      assert (H2 : S (i + j) <= List.length ls) by lia.
      specialize (IH H1 H2).
      destruct (match_window ls eof n i (S j) rest) as [|stop|].
      * now rewrite IH.
      * destruct IH as (He & Hs & Hne & Hr).
        repeat split; try assumption; try discriminate.
        destruct rest; [congruence|]. now rewrite Hr.
      * destruct IH as [Hfull Htol]. split.
        -- intros H. injection H as H. contradiction.
        -- intros (He & _ & Hr). destruct rest as [|d rest']; [discriminate|].
           injection Hr as Hr. apply Htol.
           repeat split; [assumption|discriminate|assumption].
    + apply String.eqb_neq in Hc. split.
      * intros H. injection H as H _. contradiction.
      * intros (_ & _ & Hr). destruct rest as [|d rest']; [discriminate|].
        injection Hr as Hr _. contradiction.
Qed.

(** The verdict at a candidate index, in terms of the file. *)
Lemma verdict_sound (context : list string) (i : nat) :
  i <= List.length ls ->
  match match_window ls eof (List.length context) i 0 context with
  | Matched => occurs_at ls context i
  | Tolerated stop =>
      eof = true /\ overruns_at ls context i /\ stop = List.length ls
  | Rejected => ~ accepted ls context eof i
  end.
Proof.
  intros Hi.
  pose proof (match_window_sound (List.length context) i context 0) as H.
  rewrite Nat.add_0_r in H.
  specialize (H eq_refl Hi).
  destruct (match_window ls eof (List.length context) i 0 context).
  - exact H.
  - destruct H as (He & Hs & Hne & Hr). repeat split; assumption.
  - destruct H as [Hfull Htol]. intros [Hocc | [He [Hne Hr]]].
    + contradiction.
    + apply Htol. repeat split; assumption.
Qed.

(** A full occurrence and an overrun exclude each other. *)
Lemma occurs_overruns_excl (context : list string) (i : nat) :
  occurs_at ls context i -> overruns_at ls context i -> False.
Proof.
  unfold occurs_at, overruns_at. intros Hocc [Hne Hr].
  rewrite Hr in Hocc.
  destruct context as [|c rest]; [congruence|].
  apply (f_equal (@List.length string)) in Hocc.
  rewrite length_firstn, length_removelast_cons in Hocc.
  cbn [List.length] in Hocc. lia.
Qed.

(** The candidate loop: the first accepted index, or the error when the
    loop runs out of candidates. *)
Lemma scan_sound (context : list string) :
  forall count i,
    (count <> 0 -> i + count <= List.length ls) ->
    match scan ls context eof count i with
    | Ret (k, stop) =>
        i <= k < i + count
        /\ (forall m, i <= m < k -> ~ accepted ls context eof m)
        /\ ((occurs_at ls context k /\ stop = k + List.length context)
            \/ (eof = true /\ overruns_at ls context k
                /\ stop = List.length ls))
    | Raise e =>
        e = EDiff ContextNotFound
        /\ forall m, i <= m < i + count -> ~ accepted ls context eof m
    | OutOfFuel => False
    end.
Proof.
  induction count as [|count IH]; intros i Hc; simpl.
  - split; [reflexivity|]. intros m Hm. lia.
  - assert (Hi : i + S count <= List.length ls) by (apply Hc; discriminate).
    pose proof (verdict_sound context i) as Hv.
    destruct (match_window ls eof (List.length context) i 0 context)
      as [|stop|].
    + split; [lia|]. split; [intros m Hm; lia|].
      left. split; [apply Hv; lia|reflexivity].
    + destruct Hv as (He & Ho & Hs); [lia|].
      split; [lia|]. split; [intros m Hm; lia|].
      right. split; [assumption|]. split; assumption.
    + assert (Hrej : ~ accepted ls context eof i) by (apply Hv; lia).
      specialize (IH (S i)).
      assert (Hc' : count <> 0 -> S i + count <= List.length ls) by lia.
      specialize (IH Hc').
      destruct (scan ls context eof count (S i)) as [[k stop]|e|].
      * destruct IH as (Hk & Hfirst & Hres).
        split; [lia|]. split; [|exact Hres].
        intros m Hm. destruct (Nat.eq_dec m i) as [->|Hne];
          [assumption|apply Hfirst; lia].
      * destruct IH as [He Hall]. split; [assumption|].
        intros m Hm. destruct (Nat.eq_dec m i) as [->|Hne];
          [assumption|apply Hall; lia].
      * assumption.
Qed.

End Locator.

(** The locator on a context that is not empty: the first accepted index
    at or after [start], or the error when no candidate is accepted. *)
Lemma find_context_sound (ls context : list string) (start : nat)
      (eof : bool) :
  context <> [] ->
  match find_context ls context start eof with
  | Ret (k, stop) =>
      start <= k < List.length ls
      /\ (forall m, start <= m < k -> ~ accepted ls context eof m)
      /\ ((occurs_at ls context k /\ stop = k + List.length context)
          \/ (eof = true /\ overruns_at ls context k
              /\ stop = List.length ls))
  | Raise e =>
      e = EDiff ContextNotFound
      /\ forall m, start <= m < List.length ls -> ~ accepted ls context eof m
  | OutOfFuel => False
  end.
Proof.
  intros Hne. destruct context as [|c rest]; [congruence|].
  unfold find_context.
  pose proof (scan_sound ls eof (c :: rest) (List.length ls - start) start)
    as H.
  assert (Hc : List.length ls - start <> 0 ->
               start + (List.length ls - start) <= List.length ls) by lia.
  specialize (H Hc).
  destruct (scan ls (c :: rest) eof (List.length ls - start) start)
    as [[k stop]|e|].
  - destruct H as (Hk & Hfirst & Hres). split; [lia|]. split; assumption.
  - destruct H as [He Hall]. split; [assumption|].
    intros m Hm. apply Hall. lia.
  - assumption.
Qed.

(** The locator is decided by the accepted indices: what it returns, when
    it raises, and that it does one or the other. *)
Lemma find_context_complete (ls context : list string) (start : nat)
      (eof : bool) :
  context <> [] ->
      (forall i stop,
          find_context ls context start eof = Ret (i, stop) <->
          start <= i < List.length ls
          /\ (forall k, start <= k < i -> ~ accepted ls context eof k)
          /\ ((occurs_at ls context i /\ stop = i + List.length context)
              \/ (eof = true /\ overruns_at ls context i
                  /\ stop = List.length ls)))
      /\ (find_context ls context start eof = Raise (EDiff ContextNotFound)
          <-> forall k, start <= k < List.length ls ->
                        ~ accepted ls context eof k)
      /\ ((exists i stop, find_context ls context start eof = Ret (i, stop))
          \/ find_context ls context start eof
             = Raise (EDiff ContextNotFound)).
Proof.
  intros Hne. pose proof (find_context_sound ls context start eof Hne) as H.
  destruct (find_context ls context start eof) as [[k stop']|e|].
  - destruct H as (Hk & Hfirst & Hres). split; [|split].
    + intros i stop. split.
      * intros Heq. injection Heq as <- <-. repeat split; try assumption; lia.
      * intros (Hi & Hfirsti & Hresi).
        assert (Hacc_i : accepted ls context eof i).
        { destruct Hresi as [[Ho _]|(He & Ho & _)];
            [left; assumption|right; split; assumption]. }
        assert (Hacc_k : accepted ls context eof k).
        { destruct Hres as [[Ho _]|(He & Ho & _)];
            [left; assumption|right; split; assumption]. }
        assert (k = i).
        { destruct (Nat.lt_trichotomy k i) as [Hlt|[Heq|Hgt]];
            [|assumption|].
          - exfalso. apply (Hfirsti k); [lia|assumption].
          - exfalso. apply (Hfirst i); [lia|assumption]. }
        subst k. f_equal. f_equal.
        destruct Hres as [[Ho ->]|(He & Ho & ->)];
          destruct Hresi as [[Ho' ->]|(He' & Ho' & ->)];
          try reflexivity;
          exfalso; eapply occurs_overruns_excl; eassumption.
    + split; [discriminate|]. intros Hall. exfalso.
      apply (Hall k); [lia|].
      destruct Hres as [[Ho _]|(He & Ho & _)];
        [left; assumption|right; split; assumption].
    + left. exists k, stop'. reflexivity.
  - destruct H as [-> Hall]. split; [|split].
    + intros i stop. split; [discriminate|].
      intros (Hi & _ & Hresi). exfalso. apply (Hall i); [lia|].
      destruct Hresi as [[Ho _]|(He & Ho & _)];
        [left; assumption|right; split; assumption].
    + split; [intros _; assumption|reflexivity].
    + right. reflexivity.
  - contradiction.
Qed.

Lemma occurs_at_bound (ls context : list string) (i : nat) :
  context <> [] -> occurs_at ls context i ->
  i + List.length context <= List.length ls.
Proof.
  unfold occurs_at. intros Hne H.
  apply (f_equal (@List.length string)) in H.
  rewrite length_firstn, length_skipn in H.
  destruct context; [congruence|]. cbn [List.length] in *. lia.
Qed.

(** An index that overruns lies after every index of a full occurrence. *)
Lemma overruns_after_occurs (ls context : list string) (i k : nat) :
  occurs_at ls context i -> overruns_at ls context k -> i < k.
Proof.
  intros Ho [Hne Hr]. apply occurs_at_bound in Ho; [|assumption].
  apply (f_equal (@List.length string)) in Hr.
  destruct context as [|c rest]; [congruence|].
  rewrite length_skipn, length_removelast_cons in Hr. simpl in Ho. lia.
Qed.

(** The first full occurrence at or after [start] is what the locator
    returns, with or without the end-of-file tolerance. *)
Lemma find_context_first_occurrence (ls context : list string)
      (start i : nat) (eof : bool) :
  context <> [] -> start <= i -> occurs_at ls context i ->
  (forall k, start <= k < i -> ~ occurs_at ls context k) ->
  find_context ls context start eof = Ret (i, i + List.length context).
Proof.
  intros Hne Hs Ho Hfirst.
  apply (find_context_complete ls context start eof Hne).
  pose proof (occurs_at_bound _ _ _ Hne Ho) as Hb.
  destruct context as [|c rest]; [congruence|]. simpl in Hb.
  split; [lia|]. split.
  - intros k Hk [Hok|[_ Hov]].
    + exact (Hfirst k Hk Hok).
    + pose proof (overruns_after_occurs _ _ _ _ Ho Hov). lia.
  - left. split; [assumption|reflexivity].
Qed.

(** C4. The context locator returns the first index at or after the
    offset where the context occurs as a contiguous line-by-line match; an
    empty context is found at the offset itself with a span of length
    zero; a window that runs past the end of the file is accepted only
    with [eof] set and only when the last context line alone is missing;
    when no candidate is accepted the error is context-not-found. *)
Theorem find_context_first_match (ls context : list string) (start : nat)
        (eof : bool) :
  (context = [] -> find_context ls context start eof = Ret (start, start))
  /\ (context <> [] ->
      (forall i, start <= i -> occurs_at ls context i ->
                 (forall k, start <= k < i -> ~ occurs_at ls context k) ->
                 find_context ls context start eof
                 = Ret (i, i + List.length context))
      /\ (forall i stop,
             find_context ls context start eof = Ret (i, stop) <->
             start <= i < List.length ls
             /\ (forall k, start <= k < i -> ~ accepted ls context eof k)
             /\ ((occurs_at ls context i /\ stop = i + List.length context)
                 \/ (eof = true /\ overruns_at ls context i
                     /\ stop = List.length ls)))
      /\ (find_context ls context start eof = Raise (EDiff ContextNotFound)
          <-> forall k, start <= k < List.length ls ->
                        ~ accepted ls context eof k)
      /\ ((exists i stop, find_context ls context start eof = Ret (i, stop))
          \/ find_context ls context start eof
             = Raise (EDiff ContextNotFound))).
Proof.
  split; [intros ->; reflexivity|].
  intros Hne. split.
  - intros i Hs Ho Hfirst.
    now apply find_context_first_occurrence.
  - apply find_context_complete. assumption.
Qed.

(** The three cases of the locator's test in the test suite. *)
Example test_find_context :
  find_context ["a"; "b"; "c"; "d"; "e"] ["b"; "c"] 0 false = Ret (1, 3)
  /\ find_context ["a"; "b"; "c"; "d"; "e"] ["d"; "e"] 0 true = Ret (3, 5)
  /\ find_context ["a"; "b"; "c"; "d"; "e"] ["x"; "y"] 0 false
     = Raise (EDiff ContextNotFound).
Proof. repeat split. Qed.

(** ** End-of-file tolerance *)

Lemma overruns_at_tail (front tail : list string) (extra : string) :
  overruns_at (front ++ tail) (tail ++ [extra]) (List.length front).
Proof.
  split; [destruct tail; discriminate|].
  rewrite removelast_last, skipn_app, skipn_all, Nat.sub_diag.
  reflexivity.
Qed.

Lemma overruns_only_at_tail (front tail : list string) (extra : string)
      (k : nat) :
  overruns_at (front ++ tail) (tail ++ [extra]) k -> List.length front <= k.
Proof.
  intros [_ Hr]. rewrite removelast_last in Hr.
  apply (f_equal (@List.length string)) in Hr.
  rewrite length_skipn, length_app in Hr. lia.
Qed.

(** C5, amended. A hunk whose [del_lines] are one or more lines ending the
    file followed by exactly one further line, searched with the
    end-of-file tolerance from an offset at or before those lines, is not
    rejected. The locator returns the tail itself, up to the end of the
    file, unless the [del_lines] occur in full at an earlier index at or
    after the offset; in that case the first such index is returned, with
    the span of the whole [del_lines]. *)
Theorem eof_tolerance_at_tail (front tail : list string) (extra : string)
        (start : nat) :
  tail <> [] -> start <= List.length front ->
  (exists i stop,
      find_context (front ++ tail) (tail ++ [extra]) start true = Ret (i, stop)
      /\ i <= List.length front)
  /\ ((forall k, start <= k < List.length front ->
                 ~ occurs_at (front ++ tail) (tail ++ [extra]) k) ->
      find_context (front ++ tail) (tail ++ [extra]) start true
      = Ret (List.length front, List.length (front ++ tail)))
  /\ (forall k, start <= k ->
                occurs_at (front ++ tail) (tail ++ [extra]) k ->
                exists i,
                  start <= i <= k /\ i < List.length front
                  /\ occurs_at (front ++ tail) (tail ++ [extra]) i
                  /\ (forall j, start <= j < i ->
                                ~ occurs_at (front ++ tail)
                                    (tail ++ [extra]) j)
                  /\ find_context (front ++ tail) (tail ++ [extra]) start true
                     = Ret (i, i + List.length (tail ++ [extra]))).
Proof.
  intros Hne Hs.
  assert (Hctx : tail ++ [extra] <> []) by (destruct tail; discriminate).
  pose proof (overruns_at_tail front tail extra) as Hov.
  assert (Hlt : List.length front < List.length (front ++ tail)).
  { rewrite length_app. destruct tail; [congruence|simpl; lia]. }
  destruct (find_context_complete (front ++ tail) (tail ++ [extra]) start true
                                  Hctx) as (Hret & Hraise & Htotal).
  split; [|split].
  - destruct Htotal as [(i & stop & Heq)|Heq].
    + exists i, stop. split; [assumption|].
      apply Hret in Heq. destruct Heq as (Hi & Hfirst & _).
      destruct (Nat.le_gt_cases i (List.length front)) as [Hle|Hgt];
        [assumption|].
      exfalso. apply (Hfirst (List.length front)); [lia|].
      right. split; [reflexivity|assumption].
    + exfalso. apply (proj1 Hraise Heq (List.length front)); [lia|].
      right. split; [reflexivity|assumption].
  - intros Hnone. apply Hret. split; [lia|]. split.
    + intros k Hk [Ho|[_ Ho]].
      * exact (Hnone k Hk Ho).
      * apply overruns_only_at_tail in Ho. lia.
    + right. split; [reflexivity|]. split; [assumption|reflexivity].
  - intros k Hk Hocc.
    assert (Hkf : k < List.length front).
    { pose proof (occurs_at_bound _ _ _ Hctx Hocc) as Hb.
      rewrite !length_app in Hb. simpl in Hb. lia. }
    destruct Htotal as [(i & stop & Heq)|Heq].
    + pose proof Heq as Heq'. apply Hret in Heq'.
      destruct Heq' as (Hi & Hfirst & Hcase).
      assert (Hik : i <= k).
      { destruct (Nat.le_gt_cases i k) as [Hle|Hgt]; [assumption|].
        exfalso. apply (Hfirst k); [lia|]. left. assumption. }
      destruct Hcase as [[Ho Hstop]|(_ & Ho & _)].
      * exists i. subst stop. repeat split; try assumption; try lia.
        intros j Hj Hoj. apply (Hfirst j Hj). left. assumption.
      * apply overruns_only_at_tail in Ho. lia.
    + exfalso. apply (proj1 Hraise Heq k); [lia|]. left. assumption.
Qed.

(** The tail of a two-line file, one line past its end. *)
Lemma eof_tolerance_at_tail_witness :
  find_context (["a"] ++ ["b"]) (["b"] ++ ["c"]) 0 true
  = Ret (1, List.length (["a"] ++ ["b"])).
Proof.
  refine (proj1 (proj2 (eof_tolerance_at_tail ["a"] ["b"] "c" 0 _ _)) _).
  - discriminate.
  - simpl. lia.
  - intros k Hk. simpl in Hk. assert (k = 0) by lia. subst k.
    intros H. vm_compute in H. discriminate H.
Defined.

(** C5 as stated fails in two ways: a file in which the [del_lines] occur
    in full before the tail is matched there and not at the tail, and a
    hunk of a single line placed one line past the end is rejected. *)
Lemma eof_tolerance_counterexample :
  (overruns_at ["a"; "b"; "a"] ["a"; "b"] 2
   /\ find_context ["a"; "b"; "a"] ["a"; "b"] 0 true = Ret (0, 2))
  /\ (overruns_at ["a"; "b"] ["c"] 2
      /\ find_context ["a"; "b"] ["c"] 0 true
         = Raise (EDiff ContextNotFound)).
Proof.
  repeat split; discriminate.
Qed.

(** ** The commit builder *)

Lemma endswith_append_LF (s : string) :
  Str.endswith (String.append s Str.LF) Str.LF = true.
Proof.
  unfold Str.endswith.
  assert (Hlen : String.length (String.append s Str.LF)
                 = S (String.length s)).
  { induction s as [|c s IH]; simpl; [reflexivity|]. now rewrite IH. }
  rewrite Hlen. cbn [String.length Str.LF]. rewrite Nat.sub_succ, Nat.sub_0_r.
  replace (1 <=? S (String.length s)) with true
    by (symmetry; apply Nat.leb_le; lia).
  simpl. apply String.eqb_eq. clear Hlen.
  induction s as [|c s IH]; simpl; [reflexivity|assumption].
Qed.

Lemma first_at_unique (ls del : list string) (i j : nat) :
  first_at ls del i -> first_at ls del j -> i = j.
Proof.
  intros [Hi Hfi] [Hj Hfj].
  destruct (Nat.lt_trichotomy i j) as [H|[H|H]]; [|assumption|].
  - exfalso. exact (Hfj i H Hi).
  - exfalso. exact (Hfi j H Hj).
Qed.

(** Without tolerance and from offset 0 the locator returns the first
    occurrence, with its span. *)
Lemma find_context_located (ls del : list string) (i : nat) :
  first_at ls del i ->
  find_context ls del 0 false = Ret (i, i + List.length del).
Proof.
  intros [Ho Hfirst]. destruct del as [|d del].
  - destruct i as [|i]; [reflexivity|].
    exfalso. apply (Hfirst 0); [lia|reflexivity].
  - apply find_context_first_occurrence;
      [discriminate|lia|assumption|].
    intros k Hk. apply Hfirst. lia.
Qed.

(** What the locator returns from offset 0 without tolerance is a first
    occurrence. *)
Lemma find_context_ret_first (ls del : list string) (i stop : nat) :
  find_context ls del 0 false = Ret (i, stop) ->
  first_at ls del i /\ stop = i + List.length del.
Proof.
  destruct del as [|d del].
  - simpl. intros H. injection H as <- <-. split; [|reflexivity].
    split; [reflexivity|]. intros k Hk. lia.
  - intros H.
    apply (find_context_complete ls (d :: del) 0 false) in H;
      [|discriminate].
    destruct H as (Hi & Hfirst & [[Ho Hs]|(He & _)]); [|discriminate].
    split; [|assumption]. split; [assumption|].
    intros k Hk Hok. apply (Hfirst k); [lia|]. left. assumption.
Qed.

(** Without tolerance the locator raises exactly when there is no
    occurrence at all. *)
Lemma find_context_raise_none (ls del : list string) :
  (forall k, ~ occurs_at ls del k) ->
  find_context ls del 0 false = Raise (EDiff ContextNotFound).
Proof.
  intros Hnone. destruct del as [|d del].
  - exfalso. apply (Hnone 0). reflexivity.
  - apply (find_context_complete ls (d :: del) 0 false); [discriminate|].
    intros k _ [Ho|[He _]]; [exact (Hnone k Ho)|discriminate].
Qed.

Lemma occurrence_has_first (ls del : list string) (k : nat) :
  occurs_at ls del k -> exists i, first_at ls del i.
Proof.
  intros Hk. destruct del as [|d del].
  - exists 0. split; [reflexivity|]. intros m Hm. lia.
  - destruct (find_context_complete ls (d :: del) 0 false)
      as (_ & Hraise & [(i & stop & Heq)|Heq]); [discriminate| |].
    + exists i. apply find_context_ret_first in Heq. tauto.
    + exfalso. apply (proj1 Hraise Heq k).
      * pose proof (occurs_at_bound ls (d :: del) k) as Hb.
        simpl in Hb. split; [lia|]. apply Nat.lt_le_trans with (k + 1); [lia|].
        assert (d :: del <> []) by discriminate.
        specialize (Hb H Hk). lia.
      * left. assumption.
Qed.

Lemma slice_assign_span (buf ins : list string) (i n : nat) :
  slice_assign buf i (i + n) ins = firstn i buf ++ ins ++ skipn (i + n) buf.
Proof. unfold slice_assign. now rewrite Nat.max_r by lia. Qed.

(** The chunk loop succeeds when every chunk occurs in the file, and its
    result is the working copy spliced chunk after chunk. *)
Lemma apply_chunks_spliced (ls : list string) (path : string) :
  forall cs buf,
    Forall (fun c => exists k, occurs_at ls (del_lines c) k) cs ->
    exists out, spliced ls cs buf out
                /\ apply_chunks ls path cs buf = Ret out.
Proof.
  induction cs as [|c cs IH]; intros buf Hall.
  - exists buf. split; [constructor|reflexivity].
  - inversion Hall as [|c' cs' [k Hk] Hrest]; subst.
    destruct (occurrence_has_first _ _ _ Hk) as [i Hi].
    simpl. rewrite (find_context_located _ _ _ Hi), slice_assign_span.
    destruct (IH (firstn i buf ++ ins_lines c
                         ++ skipn (i + List.length (del_lines c)) buf) Hrest)
      as (out & Hsp & Heq).
    exists out. split; [|assumption].
    econstructor; eassumption.
Qed.

(** Conversely a result of the chunk loop is such a spliced copy, and
    any other outcome is the failure to apply a chunk. *)
Lemma apply_chunks_outcome (ls : list string) (path : string) :
  forall cs buf,
    match apply_chunks ls path cs buf with
    | Ret out => spliced ls cs buf out
    | Raise e =>
        e = EDiff (FailedToApplyChunk path)
        /\ Exists (fun c => forall k, ~ occurs_at ls (del_lines c) k) cs
    | OutOfFuel => False
    end.
Proof.
  induction cs as [|c cs IH]; intros buf; simpl; [constructor|].
  destruct (find_context ls (del_lines c) 0 false) as [[i stop]|e|] eqn:Hfc.
  - apply find_context_ret_first in Hfc as [Hi ->].
    rewrite slice_assign_span.
    specialize (IH (firstn i buf ++ ins_lines c
                           ++ skipn (i + List.length (del_lines c)) buf)).
    destruct (apply_chunks ls path cs _) as [out|e|].
    + econstructor; eassumption.
    + destruct IH as [-> Hex]. split; [reflexivity|].
      now apply Exists_cons_tl.
    + assumption.
  - assert (Hnone : forall k, ~ occurs_at ls (del_lines c) k).
    { destruct (del_lines c) as [|d del] eqn:Hdel; [discriminate|].
      destruct (find_context_complete ls (d :: del) 0 false)
        as (_ & Hraise & [(i & stop & Heq)|Heq]);
        [discriminate|congruence|].
      intros k Hk. pose proof (occurs_at_bound ls (d :: del) k) as Hb.
      assert (Hne : d :: del <> []) by discriminate.
      specialize (Hb Hne Hk). simpl in Hb.
      apply (proj1 Hraise Heq k); [lia|left; assumption]. }
    assert (He : e = EDiff ContextNotFound).
    { destruct (del_lines c) as [|d del]; [discriminate|].
      destruct (find_context_complete ls (d :: del) 0 false)
        as (_ & _ & [(i & stop & Heq)|Heq]);
        [discriminate|congruence|congruence]. }
    subst e. split; [reflexivity|]. now apply Exists_cons_hd.
  - exfalso.
    destruct (del_lines c) as [|d del]; [discriminate|].
    destruct (find_context_complete ls (d :: del) 0 false)
      as (_ & _ & [(i & stop & Heq)|Heq]);
      [discriminate|congruence|congruence].
Qed.

Lemma spliced_functional (ls : list string) :
  forall cs buf out1 out2,
    spliced ls cs buf out1 -> spliced ls cs buf out2 -> out1 = out2.
Proof.
  induction cs as [|c cs IH]; intros buf out1 out2 H1 H2.
  - inversion H1; inversion H2; congruence.
  - inversion H1 as [|? ? ? ? i Hi Hs1]; subst.
    inversion H2 as [|? ? ? ? j Hj Hs2]; subst.
    assert (i = j) by (eapply first_at_unique; eassumption). subst j.
    eapply IH; eassumption.
Qed.

Lemma spliced_located (ls : list string) :
  forall cs buf out,
    spliced ls cs buf out ->
    Forall (fun c => exists k, occurs_at ls (del_lines c) k) cs.
Proof.
  induction cs as [|c cs IH]; intros buf out H; [constructor|].
  inversion H as [|? ? ? ? i [Hi _] Hs]; subst.
  constructor; [exists i; assumption|]. eapply IH; eassumption.
Qed.

(** The builder of one file: its result when there is one, the failure
    otherwise; it always ends. *)
Lemma get_updated_file_outcome (text : string) (action : PatchAction)
      (path : string) :
  type action = UPDATE ->
  match _get_updated_file text action path with
  | Ret content =>
      exists new_lines,
        spliced (Str.splitlines text) (chunks action) (Str.splitlines text)
                new_lines
        /\ content = rebuilt text new_lines
  | Raise e =>
      e = EDiff (FailedToApplyChunk path)
      /\ Exists (fun c => forall k,
                     ~ occurs_at (Str.splitlines text) (del_lines c) k)
                (chunks action)
  | OutOfFuel => False
  end.
Proof.
  intros Ht. unfold _get_updated_file. rewrite Ht.
  pose proof (apply_chunks_outcome (Str.splitlines text) path (chunks action)
                                   (Str.splitlines text)) as H.
  destruct (apply_chunks _ path (chunks action) _) as [out|e|]; simpl.
  - unfold rebuilt.
    destruct (Str.endswith text Str.LF); exists out; split;
      solve [assumption|reflexivity].
  - assumption.
  - assumption.
Qed.

Lemma get_updated_file_ends (text : string) (action : PatchAction)
      (path : string) :
  _get_updated_file text action path <> OutOfFuel.
Proof.
  destruct (type action) eqn:Ht.
  - unfold _get_updated_file. rewrite Ht. discriminate.
  - unfold _get_updated_file. rewrite Ht. discriminate.
  - pose proof (get_updated_file_outcome text action path Ht) as H.
    destruct (_get_updated_file text action path);
      [discriminate|discriminate|contradiction].
Qed.

(** A chunk that occurs nowhere in the file fails the whole Update. *)
Lemma get_updated_file_fails (text : string) (action : PatchAction)
      (path : string) :
  type action = UPDATE ->
  Exists (fun c => forall k, ~ occurs_at (Str.splitlines text) (del_lines c) k)
         (chunks action) ->
  _get_updated_file text action path = Raise (EDiff (FailedToApplyChunk path)).
Proof.
  intros Ht Hex.
  pose proof (get_updated_file_outcome text action path Ht) as H.
  destruct (_get_updated_file text action path) as [content|e|].
  - exfalso. destruct H as (new_lines & Hsp & _).
    apply spliced_located in Hsp.
    apply Exists_exists in Hex as (c & Hin & Hnone).
    rewrite Forall_forall in Hsp. destruct (Hsp c Hin) as [k Hk].
    exact (Hnone k Hk).
  - destruct H as [-> _]. reflexivity.
  - contradiction.
Qed.

(** The commit builder stops at the first action it cannot build: no
    commit is returned when an Update among the actions fails. *)
Lemma build_changes_fails (orig : Dict.t string) (path : string)
      (action : PatchAction) (text : string) (e0 : exn) :
  type action = UPDATE -> Dict.get path orig = Some text ->
  _get_updated_file text action path = Raise e0 ->
  forall actions commit,
    In (path, action) actions ->
    exists e, build_changes orig actions commit = Raise e.
Proof.
  intros Ht Hget Hfail.
  induction actions as [|[p a] rest IH]; intros commit Hin; [contradiction|].
  destruct Hin as [Heq|Hin].
  - injection Heq as -> ->. simpl. rewrite Ht. unfold lookup. rewrite Hget.
    simpl. rewrite Hfail. simpl. eexists. reflexivity.
  - simpl. destruct (type a).
    + apply IH. assumption.
    + unfold lookup. destruct (Dict.get p orig); simpl;
        [apply IH; assumption|eexists; reflexivity].
    + unfold lookup. destruct (Dict.get p orig) as [old|]; simpl;
        [|eexists; reflexivity].
      pose proof (get_updated_file_ends old a p) as Hends.
      destruct (_get_updated_file old a p) as [new|e|]; simpl;
        [apply IH; assumption|eexists; reflexivity|congruence].
Qed.

(** The tests of the parser and of the commit builder in the test
    suite. *)
Example test_identify_files :
  identify_files_needed
    (Str.join Str.LF ["*** Begin Patch"; "*** Update File: test1.py";
                      "@@ -1,3 +1,3 @@"; "a"; "-b"; "+c";
                      "*** Delete File: test2.py"; "*** Add File: test3.py";
                      "new content"; "*** End Patch"])
  = ["test1.py"; "test2.py"]
  /\ identify_files_added
       (Str.join Str.LF ["*** Begin Patch"; "*** Update File: test1.py";
                         "@@ -1,3 +1,3 @@"; "a"; "-b"; "+c";
                         "*** Delete File: test2.py"; "*** Add File: test3.py";
                         "new content"; "*** End Patch"])
     = ["test3.py"].
Proof. split; reflexivity. Qed.

Example test_text_to_patch :
  text_to_patch 8 test_patch [("test.py", Str.unlines ["a"; "b"; "c"])]
  = Ret ([("test.py", update_of [mkChunk 0 ["a"; "b"] ["a"; "c"]])], 0).
Proof. reflexivity. Qed.

Example test_patch_to_commit :
  patch_to_commit [("test.py", update_of [mkChunk 0 ["a"; "b"] ["a"; "c"]])]
                  [("test.py", Str.unlines ["a"; "b"; "c"])]
  = Ret [("test.py",
          mkFileChange UPDATE (Some (Str.unlines ["a"; "b"; "c"]))
                       (Some (Str.unlines ["a"; "c"; "c"])) None)].
Proof. reflexivity. Qed.

(** The scenario of the specification, from the patch text to the
    content of the commit. *)
Example scenario_commit :
  exists pt,
    text_to_patch 8 scenario_patch scenario_snapshot = Ret (pt, 0)
    /\ patch_to_commit pt scenario_snapshot
       = Ret [("a.py", mkFileChange UPDATE
                         (Some (Str.unlines ["x"; "y"; "z"]))
                         (Some (Str.unlines ["x"; "w"; "z"])) None)].
Proof. eexists. split; reflexivity. Qed.




(** ** Reading the snapshot *)

Section Reading.

Variable World : Type.
Variable open_fn : string -> World -> Outcome string * World.

(** Reading the files invokes the read operation and no other. *)
Lemma read_all_log :
  forall paths orig (s : Sys World) r s1,
    read_all World open_fn paths orig s = (r, s1) ->
    exists opened, log s1 = log s ++ map Opened opened.
Proof.
  induction paths as [|p paths IH]; intros orig s r s1 H; simpl in H.
  - injection H as _ <-. exists []. simpl. now rewrite app_nil_r.
  - unfold call_open in H.
    destruct (open_fn p (world s)) as [[v|e|] w] eqn:Hop.
    + apply IH in H as [opened Hlog]. exists (p :: opened).
      rewrite Hlog. simpl. now rewrite <- app_assoc.
    + injection H as _ <-. exists [p]. reflexivity.
    + injection H as _ <-. exists [p]. reflexivity.
Qed.

End Reading.

(** C3. In an Update every chunk is located in the original lines of the
    file, from offset 0, whatever the chunks before it did, and its
    [ins_lines] go into the one working copy: the content returned is the
    rebuilt text of the copy spliced that way and nothing else. A chunk
    whose [del_lines] occur nowhere makes the Update fail: the builder of
    the file raises, the commit builder returns no commit, and the
    applicator invokes neither the write nor the remove operation. *)
Theorem chunks_located_in_original (text : string) (action : PatchAction)
        (path : string) :
  type action = UPDATE ->
  (forall content,
      _get_updated_file text action path = Ret content <->
      exists new_lines,
        spliced (Str.splitlines text) (chunks action) (Str.splitlines text)
                new_lines
        /\ content = rebuilt text new_lines)
  /\ (Exists (fun c => forall k,
                  ~ occurs_at (Str.splitlines text) (del_lines c) k)
             (chunks action) ->
      _get_updated_file text action path
      = Raise (EDiff (FailedToApplyChunk path))
      /\ (forall pt orig,
             In (path, action) pt -> Dict.get path orig = Some text ->
             exists e, patch_to_commit pt orig = Raise e)
      /\ (forall World open_fn write_fn remove_fn fuel ptext
                 (s s1 : Sys World) orig pt fz,
             Str.startswith ptext "*** Begin Patch" = true ->
             read_all World open_fn (identify_files_needed ptext)
                      Dict.empty s = (Ret orig, s1) ->
             text_to_patch fuel ptext orig = Ret (pt, fz) ->
             In (path, action) pt -> Dict.get path orig = Some text ->
             exists e opened,
               process_patch World open_fn write_fn remove_fn fuel ptext s
               = (Raise e, s1)
               /\ log s1 = log s ++ map Opened opened)).
Proof.
  intros Ht. split.
  - intros content. split.
    + intros Heq.
      pose proof (get_updated_file_outcome text action path Ht) as H.
      rewrite Heq in H. exact H.
    + intros (new_lines & Hsp & ->).
      pose proof (spliced_located _ _ _ _ Hsp) as Hall.
      destruct (apply_chunks_spliced (Str.splitlines text) path
                  (chunks action) (Str.splitlines text) Hall)
        as (out & Hsp' & Heq).
      assert (out = new_lines) by (eapply spliced_functional; eassumption).
      subst out. unfold _get_updated_file, rebuilt. rewrite Ht, Heq. simpl.
      destruct (Str.endswith text Str.LF); reflexivity.
  - intros Hex.
    pose proof (get_updated_file_fails text action path Ht Hex) as Hfail.
    split; [assumption|]. split.
    + intros pt orig Hin Hget. unfold patch_to_commit.
      eapply build_changes_fails; eassumption.
    + intros World open_fn write_fn remove_fn fuel ptext s s1 orig pt fz
             Hstart Hread Hparse Hin Hget.
      destruct (build_changes_fails orig path action text _ Ht Hget Hfail
                                    pt Dict.empty Hin) as [e He].
      destruct (read_all_log World open_fn _ _ _ _ _ Hread) as [opened Hlog].
      exists e, opened. split; [|assumption].
      unfold process_patch. rewrite Hstart. simpl.
      rewrite Hread, Hparse. unfold patch_to_commit. rewrite He.
      reflexivity.
Qed.

(** The second hunk replaces the second line of the working copy, where
    [b] is in the original, and not its first line, where [b] is in the
    copy. *)
Lemma chunks_located_in_original_witness :
  _get_updated_file (Str.unlines ["a"; "b"]) (update_of shifted_chunks) "f"
  = Ret (Str.unlines ["b"; "X"; "b"]).
Proof.
  apply (proj2 (proj1 (chunks_located_in_original
                         (Str.unlines ["a"; "b"]) (update_of shifted_chunks)
                         "f" eq_refl)
                      (Str.unlines ["b"; "X"; "b"]))).
  exists ["b"; "X"; "b"]. split; [|reflexivity].
  apply (spliced_cons _ (mkChunk 0 ["a"] ["b"; "a"]) _ _ _ 0).
  - split; [reflexivity|]. intros k Hk. inversion Hk.
  - apply (spliced_cons _ (mkChunk 0 ["b"] ["X"]) _ _ _ 1).
    + split; [reflexivity|]. intros k Hk H.
      destruct k as [|k]; [vm_compute in H; discriminate H|].
      apply Nat.succ_lt_mono in Hk. inversion Hk.
    + apply spliced_nil.
Defined.

(** A hunk that matches nothing: the applicator reads the file and
    writes nothing. *)
Example failed_chunk_writes_nothing :
  run_on_files 8 no_match_patch scenario_snapshot
  = (Raise (EDiff (FailedToApplyChunk "a.py")),
     mkSys scenario_snapshot [Opened "a.py"]).
Proof. reflexivity. Qed.

(** ** The parser: reading one line *)

Lemma startswith_empty (s : string) : Str.startswith s "" = true.
Proof. destruct s; reflexivity. Qed.

Lemma stands_at_current (p : Parser) (pre rest : list string) (r : string) :
  stands_at p pre (r :: rest) -> at_end p = false /\ current p = r.
Proof.
  intros [Hl Hi]. unfold at_end, current. rewrite Hl, Hi. split.
  - apply Nat.leb_gt. rewrite length_app. simpl. lia.
  - apply nth_middle.
Qed.

Lemma stands_at_end (p : Parser) (pre : list string) :
  stands_at p pre [] -> at_end p = true.
Proof.
  intros [Hl Hi]. unfold at_end. rewrite Hl, Hi, app_nil_r.
  apply Nat.leb_refl.
Qed.

Lemma stands_at_advance (p : Parser) (pre rest : list string) (r : string) :
  stands_at p pre (r :: rest) -> stands_at (advance p) (pre ++ [r]) rest.
Proof.
  intros [Hl Hi]. split; simpl.
  - now rewrite <- app_assoc.
  - rewrite length_app, Hi. simpl. lia.
Qed.

Lemma seek_index (p : Parser) : seek p (index p) = p.
Proof. destruct p; reflexivity. Qed.

Lemma seek_advance (p : Parser) (i : nat) :
  seek (advance p) i = seek p i.
Proof. reflexivity. Qed.

(** Reading a whole line, with or without [return_everything]. *)
Lemma read_str_line (p : Parser) (pre rest : list string) (r : string)
      (everything : bool) :
  stands_at p pre (r :: rest) ->
  read_str p "" everything = Ret (r, advance p).
Proof.
  intros H. apply stands_at_current in H as [He Hc].
  unfold read_str. rewrite He, Hc, startswith_empty.
  destruct everything; reflexivity.
Qed.

(** ** The body of an Add File directive *)

Lemma is_done_body_end (p : Parser) (pre rest : list string) :
  stands_at p pre rest -> body_end rest -> is_done p ["*** "] = true.
Proof.
  intros Hp Hend. unfold is_done. destruct rest as [|r rest].
  - now rewrite (stands_at_end p pre Hp).
  - apply stands_at_current in Hp as [He Hc]. rewrite He, Hc.
    simpl in *. now rewrite Hend.
Qed.

Lemma parse_add_loop_body :
  forall body p pre rest ls fuel,
    stands_at p pre (body ++ rest) ->
    Forall (fun l => Str.startswith l "*** " = false) body ->
    body_end rest ->
    List.length body < fuel ->
    parse_add_loop fuel p ls
    = Ret (ls ++ filter Str.truthy body,
           seek p (List.length pre + List.length body)).
Proof.
  induction body as [|b body IH]; intros p pre rest ls fuel Hp Hb Hend Hf;
    (destruct fuel as [|fuel]; [inversion Hf|]); simpl.
  - rewrite (is_done_body_end p pre rest Hp Hend).
    destruct Hp as [_ Hi]. rewrite app_nil_r, Nat.add_0_r, <- Hi.
    now rewrite seek_index.
  - inversion Hb as [|? ? Hb1 Hb2]; subst.
    pose proof (stands_at_current _ _ _ _ Hp) as [He Hc].
    unfold is_done. rewrite He, Hc. simpl. rewrite Hb1. simpl.
    rewrite (read_str_line p pre (body ++ rest) b false Hp). simpl.
    rewrite (IH (advance p) (pre ++ [b]) rest _ fuel);
      [|now apply stands_at_advance|assumption|assumption|simpl in Hf; lia].
    rewrite seek_advance, length_app. simpl.
    replace (List.length pre + 1 + List.length body)
      with (List.length pre + S (List.length body)) by lia.
    destruct (Str.truthy b); [rewrite <- app_assoc|]; reflexivity.
Qed.

(** ** Final line feeds *)

Lemma endswith_LF_step (c c' : ascii) (s : string) :
  Str.endswith (String c (String c' s)) Str.LF
  = Str.endswith (String c' s) Str.LF.
Proof.
  unfold Str.endswith. cbn [String.length Str.LF].
  replace (S (S (String.length s)) - 1) with (S (String.length s)) by lia.
  replace (S (String.length s) - 1) with (String.length s) by lia.
  reflexivity.
Qed.

Lemma clean_not_endswith (s : string) :
  Str.truthy s = true -> clean s = true -> Str.endswith s Str.LF = false.
Proof.
  induction s as [|c s IH]; [discriminate|]. intros _ Hc.
  simpl in Hc. apply andb_true_iff in Hc as [Hc Hs].
  destruct s as [|c' s].
  - unfold Str.endswith. simpl.
    destruct (Ascii.eqb c (ascii_of_nat 10)) eqn:E; [|reflexivity].
    apply Ascii.eqb_eq in E. subst c. discriminate Hc.
  - rewrite endswith_LF_step. apply IH; [reflexivity|assumption].
Qed.

Lemma endswith_append (a b : string) :
  Str.truthy b = true ->
  Str.endswith (String.append a b) Str.LF = Str.endswith b Str.LF.
Proof.
  intros Hb. induction a as [|c a IH]; [reflexivity|]. simpl.
  destruct (String.append a b) as [|c' s] eqn:E.
  - destruct a; simpl in E; [subst b|]; discriminate.
  - rewrite endswith_LF_step. exact IH.
Qed.

Lemma truthy_append (a b : string) :
  Str.truthy a = true -> Str.truthy (String.append a b) = true.
Proof. destruct a; [discriminate|reflexivity]. Qed.

(** Lines that are not empty and hold no line boundary, joined with line
    feeds, do not end with one. *)
Lemma join_not_endswith (l : list string) :
  Forall (fun s => Str.truthy s = true /\ clean s = true) l ->
  Str.endswith (Str.join Str.LF l) Str.LF = false
  /\ (l <> [] -> Str.truthy (Str.join Str.LF l) = true).
Proof.
  induction l as [|x l IH]; intros Hall; [split; [reflexivity|congruence]|].
  inversion Hall as [|? ? [Hx Hc] Hl]; subst.
  destruct l as [|y l].
  - simpl. split; [now apply clean_not_endswith|intros _; assumption].
  - destruct (IH Hl) as [Hend Hne].
    assert (Hj : Str.truthy (Str.join Str.LF (y :: l)) = true)
      by (apply Hne; discriminate).
    split; [|intros _; now apply truthy_append].
    change (Str.join Str.LF (x :: y :: l))
      with (String.append x
              (String.append Str.LF (Str.join Str.LF (y :: l)))).
    rewrite endswith_append by reflexivity.
    destruct (Str.join Str.LF (y :: l)) as [|c s] eqn:E; [discriminate|].
    change (String.append Str.LF (String c s))
      with (String (ascii_of_nat 10) (String c s)).
    now rewrite endswith_LF_step.
Qed.

Lemma clean_append (a b : string) :
  clean (String.append a b) = clean a && clean b.
Proof.
  induction a as [|c a IH]; simpl; [reflexivity|].
  now rewrite IH, andb_assoc.
Qed.

(** No line of [splitlines] holds a line boundary. *)
Lemma splitlines_from_clean :
  forall n s acc,
    String.length s <= n -> clean acc = true ->
    Forall (fun l => clean l = true) (Str.splitlines_from acc s).
Proof.
  induction n as [|n IH]; intros s acc Hn Hacc.
  - destruct s; [|simpl in Hn; lia]. simpl.
    destruct (Str.truthy acc); repeat constructor; assumption.
  - destruct s as [|c r]; simpl.
    + destruct (Str.truthy acc); repeat constructor; assumption.
    + simpl in Hn. destruct (Str.is_linebreak c) eqn:Hc.
      * destruct r as [|c' r'].
        -- repeat constructor; assumption.
        -- destruct (Str.is_cr c && Str.is_lf c'); constructor;
             try assumption; apply IH; try reflexivity; simpl in *; lia.
      * apply IH; [lia|]. rewrite clean_append, Hacc. simpl. now rewrite Hc.
Qed.

Lemma splitlines_clean (text : string) :
  Forall (fun l => clean l = true) (Str.splitlines text).
Proof.
  apply (splitlines_from_clean (String.length text)); [lia|reflexivity].
Qed.

(** C10. The text stored for an Add File directive is the body lines that
    are not empty, joined with single line feeds: every empty body line
    is dropped. The parser is left after the body, and the text does not
    end with a line feed when the lines come from [splitlines]. *)
Theorem add_file_drops_empty_lines (p : Parser) (pre body rest : list string)
        (fuel : nat) :
  stands_at p pre (body ++ rest) ->
  Forall (fun l => Str.startswith l "*** " = false) body ->
  body_end rest ->
  List.length body < fuel ->
  parse_add_file fuel p
  = Ret (mkPatchAction ADD
           (Some (Str.join Str.LF (filter Str.truthy body))) [] None,
         seek p (List.length pre + List.length body))
  /\ (Forall (fun l => clean l = true) body ->
      Str.endswith (Str.join Str.LF (filter Str.truthy body)) Str.LF = false).
Proof.
  intros Hp Hb Hend Hf. split.
  - unfold parse_add_file.
    rewrite (parse_add_loop_body body p pre rest [] fuel Hp Hb Hend Hf).
    reflexivity.
  - intros Hclean. apply join_not_endswith.
    clear -Hclean. induction body as [|b body IH]; [constructor|].
    inversion Hclean; subst. simpl.
    destruct (Str.truthy b) eqn:Htb; [constructor; [split; assumption|]|];
      apply IH; assumption.
Qed.

(** A body of three lines, the second one empty. *)
Lemma add_file_drops_empty_lines_witness :
  parse_add_file 4 (seek (new_Parser [] add_lines) 2)
  = Ret (mkPatchAction ADD
           (Some (Str.join Str.LF (filter Str.truthy ["hello"; ""; "world"])))
           [] None,
         seek (seek (new_Parser [] add_lines) 2)
              (List.length ["*** Begin Patch"; "*** Add File: n.txt"]
               + List.length ["hello"; ""; "world"])).
Proof.
  refine (proj1 (add_file_drops_empty_lines
                   (seek (new_Parser [] add_lines) 2)
                   ["*** Begin Patch"; "*** Add File: n.txt"]
                   ["hello"; ""; "world"] ["*** End Patch"] 4 _ _ _ _)).
  - split; reflexivity.
  - repeat constructor.
  - reflexivity.
  - simpl. lia.
Defined.

(** The same patch from its text: the empty line is not in the file. *)
Example add_file_from_text :
  text_to_patch 8 (Str.unlines add_lines) []
  = Ret ([("n.txt",
           mkPatchAction ADD
             (Some (String.append "hello" (String.append Str.LF "world")))
             [] None)], 0).
Proof. reflexivity. Qed.

(** ** The body of a hunk *)

Lemma add_line_classified (line : string) (c : Chunk) :
  Str.startswith line "@@ " = false ->
  add_line line c
  = mkChunk (orig_index c) (del_lines c ++ to_del line)
            (ins_lines c ++ to_ins line).
Proof.
  intros H. unfold add_line, to_del, to_ins. rewrite H.
  destruct (Str.startswith line "-"); [now rewrite app_nil_r|].
  destruct (Str.startswith line "+"); [now rewrite app_nil_r|].
  reflexivity.
Qed.

Lemma startswith_truthy (s pre : string) :
  Str.truthy pre = true -> Str.startswith s pre = true -> Str.truthy s = true.
Proof. destruct pre; [discriminate|]. destruct s; [discriminate|reflexivity]. Qed.

Lemma chunk_app_nil (c : Chunk) :
  mkChunk (orig_index c) (del_lines c ++ []) (ins_lines c ++ []) = c.
Proof. destruct c. simpl. now rewrite !app_nil_r. Qed.

(** C2, amended. Within a hunk body a line that starts with [-] goes,
    without the marker, to [del_lines] only; a line that starts with [+]
    goes, without the marker, to [ins_lines] only; every other line that
    is not empty goes unchanged to both. The body ends before a hunk
    header, a directive or the end of the patch, and at an empty line,
    which is consumed and goes to neither list. *)
Theorem hunk_body_lines_classified (p : Parser) (pre body rest : list string)
        (c : Chunk) (fuel : nat) :
  stands_at p pre (body ++ rest) ->
  Forall hunk_line body ->
  hunk_end rest ->
  List.length body < fuel ->
  parse_chunk fuel p c
  = Ret (mkChunk (orig_index c)
                 (del_lines c ++ flat_map to_del body)
                 (ins_lines c ++ flat_map to_ins body),
         seek p (List.length pre + List.length body + consumed rest)).
Proof.
  revert p pre rest c fuel.
  induction body as [|b body IH]; intros p pre rest c fuel Hp Hb Hend Hf;
    (destruct fuel as [|fuel]; [inversion Hf|]); simpl.
  - rewrite chunk_app_nil, Nat.add_0_r. destruct rest as [|r rest].
    + unfold is_done. rewrite (stands_at_end p pre Hp).
      destruct Hp as [_ Hi]. simpl. now rewrite Nat.add_0_r, <- Hi, seek_index.
    + pose proof (stands_at_current _ _ _ _ Hp) as [He Hc].
      unfold is_done. rewrite He, Hc. simpl in Hend. simpl.
      destruct Hend as [->|[H|H]].
      * simpl. rewrite (read_str_line p pre rest "" true Hp). simpl.
        destruct Hp as [_ Hi]. unfold advance, seek. rewrite Hi.
        do 2 f_equal. f_equal. lia.
      * rewrite H. simpl.
        rewrite (startswith_truthy r "@@ " eq_refl H).
        destruct Hp as [_ Hi]. now rewrite Nat.add_0_r, <- Hi, seek_index.
      * rewrite H. rewrite orb_true_r. simpl.
        rewrite (startswith_truthy r "*** " eq_refl H).
        destruct Hp as [_ Hi]. now rewrite Nat.add_0_r, <- Hi, seek_index.
  - inversion Hb as [|? ? (Ht & Hh & Hd) Hb2]; subst.
    pose proof (stands_at_current _ _ _ _ Hp) as [He Hc].
    unfold is_done. rewrite He, Hc. simpl. rewrite Hh, Hd. simpl.
    rewrite (read_str_line p pre (body ++ rest) b true Hp). simpl.
    rewrite Ht. simpl.
    rewrite (IH (advance p) (pre ++ [b]) rest _ fuel);
      [|now apply stands_at_advance|assumption|assumption|simpl in Hf; lia].
    rewrite (add_line_classified b c Hh). simpl.
    rewrite seek_advance, length_app, <- !app_assoc. simpl.
    do 3 f_equal. lia.
Qed.

(** A hunk body of three lines that an empty line ends. *)
Lemma hunk_body_lines_classified_witness :
  parse_chunk 4 (seek (new_Parser [] blank_hunk_lines) 3) (mkChunk 0 [] [])
  = Ret (mkChunk 0 ([] ++ flat_map to_del ["x"; "-y"; "+w"])
                 ([] ++ flat_map to_ins ["x"; "-y"; "+w"]),
         seek (seek (new_Parser [] blank_hunk_lines) 3)
              (List.length ["*** Begin Patch"; "*** Update File: f"; "@@ "]
               + List.length ["x"; "-y"; "+w"]
               + consumed [""; "*** End Patch"])).
Proof.
  refine (hunk_body_lines_classified
            (seek (new_Parser [] blank_hunk_lines) 3)
            ["*** Begin Patch"; "*** Update File: f"; "@@ "]
            ["x"; "-y"; "+w"] [""; "*** End Patch"] (mkChunk 0 [] []) 4
            _ _ _ _).
  - split; reflexivity.
  - repeat constructor.
  - left. reflexivity.
  - simpl. lia.
Defined.

(** C2 as stated fails at an empty line: it is added to neither list. *)
Lemma hunk_empty_line_counterexample :
  text_to_patch 8 (Str.unlines blank_hunk_lines)
                [("f", Str.unlines ["x"; "y"; ""])]
  = Ret ([("f", update_of [mkChunk 0 ["x"; "y"] ["x"; "w"]])], 0)
  /\ ~ In "" (del_lines (mkChunk 0 ["x"; "y"] ["x"; "w"]))
  /\ ~ In "" (ins_lines (mkChunk 0 ["x"; "y"] ["x"; "w"])).
Proof.
  split; [reflexivity|].
  split; simpl; intros [H|[H|H]]; solve [discriminate H|exact H].
Qed.

(** ** The applicator *)

Section ApplicatorFacts.

Variable World : Type.
Variable open_fn : string -> World -> Outcome string * World.
Variable write_fn : string -> string -> World -> Outcome unit * World.
Variable remove_fn : string -> World -> Outcome unit * World.

Local Abbreviation do_change := (apply_change World write_fn remove_fn).
Local Abbreviation do_changes :=
  (apply_changes World write_fn remove_fn).

(** Every change only adds to the log. *)
Lemma apply_change_log (path : string) (change : FileChange) (s : Sys World) :
  exists l, log (snd (do_change path change s)) = log s ++ l.
Proof.
  unfold apply_change, call_write, call_remove.
  destruct (fc_type change).
  - destruct (write_fn _ _ _). eexists. reflexivity.
  - destruct (remove_fn _ _). eexists. reflexivity.
  - destruct (truthy_opt _).
    + destruct (write_fn _ _ _) as [[[]|e|] w]; simpl.
      * destruct (remove_fn _ _). simpl. rewrite <- app_assoc.
        eexists. reflexivity.
      * eexists. reflexivity.
      * eexists. reflexivity.
    + destruct (write_fn _ _ _). eexists. reflexivity.
Qed.

Lemma apply_changes_log :
  forall changes (s : Sys World),
  exists l, log (snd (do_changes changes s)) = log s ++ l.
Proof.
  induction changes as [|[p c] rest IH]; intros s; simpl.
  - exists []. now rewrite app_nil_r.
  - destruct (apply_change_log p c s) as [l1 Hl1].
    destruct (do_change p c s) as [[u|e|] s1]; simpl in *.
    + destruct (IH s1) as [l2 Hl2]. exists (l1 ++ l2).
      now rewrite Hl2, Hl1, app_assoc.
    + exists l1. assumption.
    + exists l1. assumption.
Qed.

(** The loop returns nothing but the success token. *)
Lemma apply_changes_token :
  forall changes (s s' : Sys World) r,
    do_changes changes s = (Ret r, s') -> r = "Done!".
Proof.
  induction changes as [|[p c] rest IH]; intros s s' r H; simpl in H.
  - now injection H as <- _.
  - destruct (do_change p c s) as [[u|e|] s1];
      [eapply IH; eassumption|discriminate|discriminate].
Qed.

(** The loop over a list in two parts. *)
Lemma apply_changes_app :
  forall pre post (s s' : Sys World) r,
    do_changes (pre ++ post) s = (Ret r, s') ->
    exists s1, do_changes pre s = (Ret "Done!", s1)
               /\ do_changes post s1 = (Ret r, s').
Proof.
  induction pre as [|[p c] pre IH]; intros post s s' r H; simpl in *.
  - exists s. split; [reflexivity|assumption].
  - destruct (do_change p c s) as [[u|e|] s1];
      [apply IH; assumption|discriminate|discriminate].
Qed.

(** A run of the applicator that returns went through every stage: the
    files were read, the patch parsed, the commit built, and the changes
    applied. *)
Lemma process_patch_ret (fuel : nat) (text : string) (s s' : Sys World)
      (r : string) :
  process_patch World open_fn write_fn remove_fn fuel text s = (Ret r, s') ->
  exists orig s1 pt fz commit,
    read_all World open_fn (identify_files_needed text) Dict.empty s
    = (Ret orig, s1)
    /\ text_to_patch fuel text orig = Ret (pt, fz)
    /\ patch_to_commit pt orig = Ret commit
    /\ do_changes commit s1 = (Ret r, s').
Proof.
  unfold process_patch. intros H.
  destruct (negb (Str.startswith text "*** Begin Patch")); [discriminate|].
  destruct (read_all World open_fn (identify_files_needed text) Dict.empty s)
    as [[orig|e|] s1]; try discriminate.
  destruct (text_to_patch fuel text orig) as [[pt fz]|e|] eqn:Hp;
    try discriminate.
  destruct (patch_to_commit pt orig) as [commit|e|] eqn:Hc;
    try discriminate.
  exists orig, s1, pt, fz, commit. repeat split; assumption.
Qed.

(** C8. For an Update change with a rename target the applicator invokes
    the write operation on the new path with the new content and then the
    remove operation on the original path: the remove is never invoked
    before the write, and not at all when the write fails. A run over all
    the changes of a commit that ends without failure holds the two
    invocations next to each other and returns the success token, and
    when no operation fails the run ends without failure. Whatever the
    patch text, the applicator returns nothing but the success token. *)
Theorem rename_writes_then_removes (path mv : string) (change : FileChange) :
  fc_type change = UPDATE ->
  fc_move_path change = Some mv ->
  Str.truthy mv = true ->
  (forall (s s' : Sys World) r,
      do_change path change s = (r, s') ->
      log s' = log s ++ [Written mv (or_empty (new_content change));
                         Removed path]
      \/ (log s' = log s ++ [Written mv (or_empty (new_content change))]
          /\ r <> Ret tt))
  /\ (forall pre post (s s' : Sys World) r,
         do_changes (pre ++ (path, change) :: post) s = (Ret r, s') ->
         r = "Done!"
         /\ exists l1 l2,
             log s' = log s ++ l1
                            ++ [Written mv (or_empty (new_content change));
                                Removed path] ++ l2)
  /\ ((forall p c w, fst (write_fn p c w) = Ret tt) ->
      (forall p w, fst (remove_fn p w) = Ret tt) ->
      forall changes (s : Sys World),
        fst (do_changes changes s) = Ret "Done!")
  /\ (forall fuel text (s s' : Sys World) r,
         process_patch World open_fn write_fn remove_fn fuel text s
         = (Ret r, s') ->
         r = "Done!").
Proof.
  intros Ht Hm Hmv.
  assert (Hone : forall (s s' : Sys World) r,
             do_change path change s = (r, s') ->
             log s' = log s ++ [Written mv (or_empty (new_content change));
                                Removed path]
             \/ (log s' = log s ++ [Written mv (or_empty (new_content change))]
                 /\ r <> Ret tt)).
  { intros s s' r H. unfold apply_change in H.
    rewrite Ht, Hm in H. simpl in H. rewrite Hmv in H.
    unfold call_write, call_remove in H.
    destruct (write_fn mv _ (world s)) as [[[]|e|] w]; simpl in H.
    - destruct (remove_fn path w) as [r' w']. injection H as _ <-.
      left. simpl. now rewrite <- app_assoc.
    - injection H as <- <-. right. split; [reflexivity|discriminate].
    - injection H as <- <-. right. split; [reflexivity|discriminate]. }
  split; [exact Hone|]. split; [|split].
  - intros pre post s s' r H.
    split; [eapply apply_changes_token; eassumption|].
    apply apply_changes_app in H as (s1 & Hpre & Hrest).
    simpl in Hrest.
    destruct (do_change path change s1) as [[u|e|] s2] eqn:Hc;
      [|discriminate|discriminate].
    destruct (apply_changes_log pre s) as [l1 Hl1].
    rewrite Hpre in Hl1. simpl in Hl1.
    destruct (apply_changes_log post s2) as [l2 Hl2].
    rewrite Hrest in Hl2. simpl in Hl2.
    destruct (Hone s1 s2 _ Hc) as [Hlog|[_ Hne]].
    + exists l1, l2. rewrite Hl2, Hlog, Hl1. now rewrite <- !app_assoc.
    + destruct u. congruence.
  - intros Hw Hr. induction changes as [|[p c] rest IH]; intros s; simpl;
      [reflexivity|].
    assert (Hok : fst (do_change p c s) = Ret tt).
    { unfold apply_change, call_write, call_remove.
      destruct (fc_type c).
      - specialize (Hw p (or_empty (new_content c)) (world s)).
        destruct (write_fn _ _ _). assumption.
      - specialize (Hr p (world s)). destruct (remove_fn _ _). assumption.
      - destruct (truthy_opt _).
        + specialize (Hw (or_empty (fc_move_path c))
                         (or_empty (new_content c)) (world s)).
          destruct (write_fn _ _ _) as [r w]. simpl in Hw. subst r.
          specialize (Hr p w). destruct (remove_fn _ _). assumption.
        + specialize (Hw p (or_empty (new_content c)) (world s)).
          destruct (write_fn _ _ _). assumption. }
    destruct (do_change p c s) as [r s1]. simpl in Hok. subst r.
    apply IH.
  - intros fuel text s s' r H.
    apply process_patch_ret in H as (orig & s1 & pt & fz & commit & H).
    destruct H as (_ & _ & _ & Happly).
    eapply apply_changes_token. eassumption.
Qed.

End ApplicatorFacts.

(** The test of the applicator in the test suite. *)
Example test_process_patch :
  run_on_files 8 test_patch [("test.py", Str.unlines ["a"; "b"; "c"])]
  = (Ret "Done!",
     mkSys [("test.py", Str.unlines ["a"; "c"; "c"])]
           [Opened "test.py";
            Written "test.py" (Str.unlines ["a"; "c"; "c"])]).
Proof. reflexivity. Qed.

(** The rename scenario on the files of the test suite. *)
Lemma rename_writes_then_removes_witness :
  (forall (s s' : Sys Files) r,
      apply_change Files files_write files_remove "a.py"
        (mkFileChange UPDATE (Some (Str.unlines ["x"; "y"; "z"]))
                      (Some (Str.unlines ["x"; "w"; "z"])) (Some "b.py"))
        s = (r, s') ->
      log s' = log s ++ [Written "b.py" (Str.unlines ["x"; "w"; "z"]);
                         Removed "a.py"]
      \/ (log s' = log s ++ [Written "b.py" (Str.unlines ["x"; "w"; "z"])]
          /\ r <> Ret tt))
  /\ run_on_files 8 rename_patch scenario_snapshot
     = (Ret "Done!",
        mkSys [("b.py", Str.unlines ["x"; "w"; "z"])]
              [Opened "a.py";
               Written "b.py" (Str.unlines ["x"; "w"; "z"]);
               Removed "a.py"]).
Proof.
  split; [|reflexivity].
  exact (proj1 (rename_writes_then_removes
                  Files files_open files_write files_remove "a.py" "b.py"
                  (mkFileChange UPDATE (Some (Str.unlines ["x"; "y"; "z"]))
                                (Some (Str.unlines ["x"; "w"; "z"]))
                                (Some "b.py"))
                  eq_refl eq_refl eq_refl)).
Defined.

(** ** The header *)

(** C7, amended. For a text that does not start with the characters
    [*** Begin Patch], the parse entry point and the process-patch entry
    point fail at once with the malformed-patch error: whatever the
    budget of loop iterations, even none, and with the state of the
    injected operations and the log of their invocations unchanged. *)
Theorem malformed_header_rejected (text : string) :
  Str.startswith text "*** Begin Patch" = false ->
  (forall fuel orig,
      text_to_patch fuel text orig = Raise (EDiff MalformedHeader))
  /\ (forall World open_fn write_fn remove_fn fuel (s : Sys World),
         process_patch World open_fn write_fn remove_fn fuel text s
         = (Raise (EDiff MalformedHeader), s)).
Proof.
  intros H. split.
  - intros fuel orig. unfold text_to_patch. now rewrite H.
  - intros World open_fn write_fn remove_fn fuel s.
    unfold process_patch. now rewrite H.
Qed.

(** A text that starts with the end marker. *)
Lemma malformed_header_rejected_witness :
  (forall fuel orig,
      text_to_patch fuel "*** End Patch" orig = Raise (EDiff MalformedHeader))
  /\ (forall World open_fn write_fn remove_fn fuel (s : Sys World),
         process_patch World open_fn write_fn remove_fn fuel "*** End Patch" s
         = (Raise (EDiff MalformedHeader), s)).
Proof.
  exact (malformed_header_rejected "*** End Patch" eq_refl).
Defined.

(** C7 as stated fails for a text whose first line is not the marker but
    starts with it: it is parsed and processed. *)
Lemma begin_line_counterexample :
  Str.splitlines patchwork = ["*** Begin Patchwork"]
  /\ "*** Begin Patchwork" <> "*** Begin Patch"
  /\ text_to_patch 1 patchwork [] = Ret ([], 0)
  /\ run_on_files 1 patchwork [] = (Ret "Done!", mkSys [] []).
Proof.
  split; [reflexivity|]. split; [discriminate|]. split; reflexivity.
Qed.

(** ** A parser that does not return *)

(** In [parse_update_file] a line that is neither a hunk header nor a
    directive is never passed: every iteration finds the parser as the
    one before left it. *)
Lemma parse_update_loop_stuck :
  forall fuel p a,
    is_done p ["*** "] = false -> startswith p "@@ " = false ->
    parse_update_loop fuel p a = OutOfFuel.
Proof.
  induction fuel as [|fuel IH]; intros p a Hd Hs; simpl; [reflexivity|].
  rewrite Hd, Hs. apply IH; assumption.
Qed.

(** C9 fails on the code. For the Update body of [stuck_patch], whose
    first line [x] is neither a hunk header nor a directive, no budget of
    loop iterations lets the parser return a patch or raise an error. *)
Theorem parse_update_never_returns :
  forall fuel, text_to_patch fuel stuck_patch scenario_snapshot = OutOfFuel.
Proof.
  intros [|fuel]; [reflexivity|].
  unfold text_to_patch, parse.
  cbv -[parse_update_loop].
  rewrite parse_update_loop_stuck; reflexivity.
Qed.

(** ** Directives and duplicate paths *)

Lemma prefix_append (pre s : string) :
  String.prefix pre (String.append pre s) = true.
Proof.
  induction pre as [|c pre IH]; simpl; [destruct s; reflexivity|].
  destruct (ascii_dec c c); [assumption|congruence].
Qed.

Lemma drop_append (pre s : string) :
  Str.drop (String.length pre) (String.append pre s) = s.
Proof. induction pre as [|c pre IH]; simpl; [reflexivity|assumption]. Qed.

Lemma mem_set_same {V} (k : string) (v : V) (d : Dict.t V) :
  Dict.mem k (Dict.set k v d) = true.
Proof.
  induction d as [|[k' v'] d IH]; simpl; [now rewrite String.eqb_refl|].
  destruct (String.eqb k k') eqn:E; simpl; rewrite E; [reflexivity|assumption].
Qed.

Lemma mem_set_mono {V} (k k' : string) (v : V) (d : Dict.t V) :
  Dict.mem k d = true -> Dict.mem k (Dict.set k' v d) = true.
Proof.
  induction d as [|[k0 v0] d IH]; simpl; [discriminate|].
  destruct (String.eqb k k0) eqn:E.
  - intros _. destruct (String.eqb k' k0); simpl; now rewrite E.
  - intros H. destruct (String.eqb k' k0); simpl; rewrite E;
      [assumption|now apply IH].
Qed.

(** Reading a line that has the prefix, and one that has not. *)
Lemma read_str_prefix (p : Parser) (pre s : string) :
  at_end p = false -> current p = String.append pre s ->
  read_str p pre false = Ret (s, advance p).
Proof.
  intros He Hc. unfold read_str, Str.startswith.
  now rewrite He, Hc, prefix_append, drop_append.
Qed.

Lemma read_str_mismatch (p : Parser) (pre : string) :
  at_end p = false -> Str.startswith (current p) pre = false ->
  read_str p pre false = Ret ("", p).
Proof. intros He Hc. unfold read_str. now rewrite He, Hc. Qed.

(** The current line, known by [Hc], does not start with [pre]: the read
    returns the empty string and leaves the parser where it is. *)
Ltac not_prefix p pre He Hc :=
  rewrite (read_str_mismatch p pre He) by (rewrite Hc; reflexivity);
  cbn [bind Str.truthy].

(** What reading leaves unchanged. *)
Lemma read_str_patch (p p' : Parser) (pre s : string) (b : bool) :
  read_str p pre b = Ret (s, p') -> patch p' = patch p.
Proof.
  unfold read_str. destruct (at_end p); [discriminate|].
  destruct (Str.startswith (current p) pre); intros H;
    injection H as _ <-; reflexivity.
Qed.

Lemma parse_chunk_patch :
  forall fuel p c c' p',
    parse_chunk fuel p c = Ret (c', p') -> patch p' = patch p.
Proof.
  induction fuel as [|fuel IH]; intros p c c' p' H; simpl in H;
    [discriminate|].
  destruct (is_done p ["@@ "; "*** "]); [now injection H as _ <-|].
  destruct (read_str p "" true) as [[line p1]|e|] eqn:Hr; simpl in H;
    try discriminate.
  apply read_str_patch in Hr.
  destruct (Str.truthy line); simpl in H.
  - apply IH in H. congruence.
  - injection H as _ <-. assumption.
Qed.

Lemma parse_update_loop_patch :
  forall fuel p a a' p',
    parse_update_loop fuel p a = Ret (a', p') -> patch p' = patch p.
Proof.
  induction fuel as [|fuel IH]; intros p a a' p' H; simpl in H;
    [discriminate|].
  destruct (is_done p ["*** "]); [now injection H as _ <-|].
  destruct (startswith p "@@ "); [|eapply IH; eassumption].
  destruct (parse_chunk fuel (advance p) (mkChunk 0 [] []))
    as [[c p1]|e|] eqn:Hc; simpl in H; try discriminate.
  apply parse_chunk_patch in Hc. apply IH in H. simpl in Hc. congruence.
Qed.

Lemma parse_add_loop_patch :
  forall fuel p ls ls' p',
    parse_add_loop fuel p ls = Ret (ls', p') -> patch p' = patch p.
Proof.
  induction fuel as [|fuel IH]; intros p ls ls' p' H; simpl in H;
    [discriminate|].
  destruct (is_done p ["*** "]); [now injection H as _ <-|].
  destruct (read_str p "" false) as [[line p1]|e|] eqn:Hr; simpl in H;
    try discriminate.
  apply read_str_patch in Hr. apply IH in H. congruence.
Qed.

(** A directive that is parsed registers one action and keeps the ones
    that are registered. *)
Lemma parse_directive_registers (fuel : nat) (p p1 : Parser) :
  parse_directive fuel p = Ret p1 ->
  exists path a p3, p1 = register p3 path a /\ patch p3 = patch p.
Proof.
  unfold parse_directive. intros H.
  destruct (read_str p "*** Update File: " false) as [[path q1]|e|] eqn:R1;
    simpl in H; try discriminate.
  pose proof (read_str_patch _ _ _ _ _ R1) as F1.
  destruct (Str.truthy path).
  - destruct (Dict.mem path (patch q1)); [discriminate|].
    destruct (read_str q1 "*** Move to: " false) as [[mv q2]|e|] eqn:R2;
      simpl in H; try discriminate.
    pose proof (read_str_patch _ _ _ _ _ R2) as F2.
    destruct (negb (Dict.mem path (current_files q2))); [discriminate|].
    destruct (Dict.get path (current_files q2)) as [text|]; [|discriminate].
    unfold parse_update_file in H.
    destruct (parse_update_loop fuel q2 _) as [[a q3]|e|] eqn:R3;
      simpl in H; try discriminate.
    apply parse_update_loop_patch in R3.
    injection H as <-. do 3 eexists. split; [reflexivity|congruence].
  - destruct (read_str q1 "*** Add File: " false) as [[path2 q2]|e|] eqn:R2;
      simpl in H; try discriminate.
    pose proof (read_str_patch _ _ _ _ _ R2) as F2.
    destruct (Str.truthy path2).
    + destruct (Dict.mem path2 (patch q2)); [discriminate|].
      unfold parse_add_file in H.
      destruct (parse_add_loop fuel q2 []) as [[ls q3]|e|] eqn:R3;
        simpl in H; try discriminate.
      apply parse_add_loop_patch in R3.
      injection H as <-. do 3 eexists. split; [reflexivity|congruence].
    + destruct (read_str q2 "*** Delete File: " false)
        as [[path3 q3]|e|] eqn:R3; simpl in H; try discriminate.
      pose proof (read_str_patch _ _ _ _ _ R3) as F3.
      destruct (Str.truthy path3);
        [|destruct (at_end q3); discriminate].
      destruct (Dict.mem path3 (patch q3)); [discriminate|].
      destruct (negb (Dict.mem path3 (current_files q3))); [discriminate|].
      injection H as <-. do 3 eexists. split; [reflexivity|congruence].
Qed.

Lemma reaches_keeps_path (k : string) (p q : Parser) :
  reaches p q -> Dict.mem k (patch p) = true -> Dict.mem k (patch q) = true.
Proof.
  induction 1 as [p|p p1 q fuel Hd Hp Hr IH]; intros Hk; [assumption|].
  apply IH. apply parse_directive_registers in Hp as (path & a & p3 & -> & F).
  simpl. rewrite F. now apply mem_set_mono.
Qed.

Lemma reaches_trans (p q r : Parser) :
  reaches p q -> reaches q r -> reaches p r.
Proof.
  induction 1 as [p|p p1 q fuel Hd Hp Hr IH]; intros Hqr; [assumption|].
  econstructor; [eassumption|eassumption|]. apply IH. assumption.
Qed.

(** ** A larger budget changes no outcome *)

Lemma parse_chunk_mono :
  forall fuel fuel' p c,
    fuel <= fuel' -> parse_chunk fuel p c <> OutOfFuel ->
    parse_chunk fuel' p c = parse_chunk fuel p c.
Proof.
  induction fuel as [|fuel IH]; intros fuel' p c Hle Hne;
    [simpl in Hne; congruence|].
  destruct fuel' as [|fuel']; [lia|]. simpl in *.
  destruct (is_done p ["@@ "; "*** "]); [reflexivity|].
  destruct (read_str p "" true) as [[line p1]|e|]; simpl in *;
    try reflexivity.
  destruct (Str.truthy line); simpl in *; [|reflexivity].
  apply IH; [lia|assumption].
Qed.

Lemma parse_update_loop_mono :
  forall fuel fuel' p a,
    fuel <= fuel' -> parse_update_loop fuel p a <> OutOfFuel ->
    parse_update_loop fuel' p a = parse_update_loop fuel p a.
Proof.
  induction fuel as [|fuel IH]; intros fuel' p a Hle Hne;
    [simpl in Hne; congruence|].
  destruct fuel' as [|fuel']; [lia|]. simpl in *.
  destruct (is_done p ["*** "]); [reflexivity|].
  destruct (startswith p "@@ "); [|apply IH; [lia|assumption]].
  assert (Hc : parse_chunk fuel (advance p) (mkChunk 0 [] []) <> OutOfFuel).
  { intros E. rewrite E in Hne. simpl in Hne. congruence. }
  rewrite (parse_chunk_mono fuel fuel') by (assumption || lia).
  destruct (parse_chunk fuel (advance p) (mkChunk 0 [] []))
    as [[c p1]|e|]; simpl in *; try reflexivity.
  apply IH; [lia|assumption].
Qed.

Lemma parse_add_loop_mono :
  forall fuel fuel' p ls,
    fuel <= fuel' -> parse_add_loop fuel p ls <> OutOfFuel ->
    parse_add_loop fuel' p ls = parse_add_loop fuel p ls.
Proof.
  induction fuel as [|fuel IH]; intros fuel' p ls Hle Hne;
    [simpl in Hne; congruence|].
  destruct fuel' as [|fuel']; [lia|]. simpl in *.
  destruct (is_done p ["*** "]); [reflexivity|].
  destruct (read_str p "" false) as [[line p1]|e|]; simpl in *;
    try reflexivity.
  apply IH; [lia|assumption].
Qed.

Lemma parse_directive_mono (fuel fuel' : nat) (p : Parser) :
  fuel <= fuel' -> parse_directive fuel p <> OutOfFuel ->
  parse_directive fuel' p = parse_directive fuel p.
Proof.
  intros Hle. unfold parse_directive.
  destruct (read_str p "*** Update File: " false) as [[path q1]|e|];
    simpl; try reflexivity.
  destruct (Str.truthy path).
  - destruct (Dict.mem path (patch q1)); [reflexivity|].
    destruct (read_str q1 "*** Move to: " false) as [[mv q2]|e|];
      simpl; try reflexivity.
    destruct (negb (Dict.mem path (current_files q2))); [reflexivity|].
    destruct (Dict.get path (current_files q2)) as [text|]; [|reflexivity].
    unfold parse_update_file. intros Hne.
    rewrite (parse_update_loop_mono fuel fuel'); [reflexivity|assumption|].
    intros E. rewrite E in Hne. simpl in Hne. congruence.
  - destruct (read_str q1 "*** Add File: " false) as [[path2 q2]|e|];
      simpl; try reflexivity.
    destruct (Str.truthy path2); [|reflexivity].
    destruct (Dict.mem path2 (patch q2)); [reflexivity|].
    unfold parse_add_file. intros Hne.
    rewrite (parse_add_loop_mono fuel fuel'); [reflexivity|assumption|].
    intros E. rewrite E in Hne. simpl in Hne. congruence.
Qed.

(** What the loop of [parse] does at a state it reaches, it does from the
    start, given a budget that is large enough. *)
Lemma reaches_outcome (p q : Parser) (r : Outcome Parser) :
  reaches p q ->
  (exists f0, forall fuel, f0 <= fuel -> parse_loop fuel q = r) ->
  exists f1, forall fuel, f1 <= fuel -> parse_loop fuel p = r.
Proof.
  induction 1 as [p|p p1 q fuel0 Hd Hp Hr IH]; intros Hq; [assumption|].
  destruct (IH Hq) as [f1 Hf1].
  exists (S (Nat.max fuel0 f1)). intros fuel Hle.
  destruct fuel as [|n]; [lia|]. simpl. rewrite Hd.
  rewrite (parse_directive_mono fuel0 n) by (lia || congruence).
  rewrite Hp. simpl. apply Hf1. lia.
Qed.

(** ** Duplicate paths *)

Lemma at_directive_not_done (p : Parser) (d : Directive) (path : string) :
  at_directive p d path -> is_done p ["*** End Patch"] = false.
Proof.
  intros (He & Hc & _). unfold is_done. rewrite He, Hc.
  destruct d; reflexivity.
Qed.

(** At a directive for a registered path the error is raised at once,
    whatever the budget. *)
Lemma parse_directive_duplicate (p : Parser) (d : Directive) (path : string) :
  at_directive p d path -> Dict.mem path (patch p) = true ->
  forall fuel,
    parse_directive fuel p = Raise (EDiff (DuplicatePath d path)).
Proof.
  intros (He & Hc & Ht) Hm fuel. unfold parse_directive.
  destruct d; unfold directive_prefix in Hc.
  - rewrite (read_str_prefix p _ path He Hc). simpl. rewrite Ht.
    simpl. now rewrite Hm.
  - not_prefix p "*** Update File: " He Hc.
    rewrite (read_str_prefix p _ path He Hc). simpl. rewrite Ht.
    simpl. now rewrite Hm.
  - not_prefix p "*** Update File: " He Hc.
    not_prefix p "*** Add File: " He Hc.
    rewrite (read_str_prefix p _ path He Hc). simpl. rewrite Ht.
    simpl. now rewrite Hm.
Qed.

(** A directive that is parsed registers its path. *)
Lemma parse_directive_path (fuel : nat) (p p1 : Parser) (d : Directive)
      (path : string) :
  at_directive p d path -> parse_directive fuel p = Ret p1 ->
  Dict.mem path (patch p1) = true.
Proof.
  intros (He & Hc & Ht). unfold parse_directive.
  destruct d; unfold directive_prefix in Hc.
  - rewrite (read_str_prefix p _ path He Hc). simpl. rewrite Ht.
    destruct (Dict.mem path (patch p)); [discriminate|].
    destruct (read_str (advance p) "*** Move to: " false)
      as [[mv q2]|e|]; simpl; try discriminate.
    destruct (negb (Dict.mem path (current_files q2))); [discriminate|].
    destruct (Dict.get path (current_files q2)); [|discriminate].
    destruct (parse_update_file fuel q2 s) as [[a q3]|e|]; simpl;
      try discriminate.
    intros H. injection H as <-. apply mem_set_same.
  - not_prefix p "*** Update File: " He Hc.
    rewrite (read_str_prefix p _ path He Hc). simpl. rewrite Ht.
    destruct (Dict.mem path (patch p)); [discriminate|].
    destruct (parse_add_file fuel (advance p)) as [[a q3]|e|]; simpl;
      try discriminate.
    intros H. injection H as <-. apply mem_set_same.
  - not_prefix p "*** Update File: " He Hc.
    not_prefix p "*** Add File: " He Hc.
    rewrite (read_str_prefix p _ path He Hc). simpl. rewrite Ht.
    destruct (Dict.mem path (patch p)); [discriminate|].
    destruct (negb (Dict.mem path (current_files p))); [discriminate|].
    intros H. injection H as <-. apply mem_set_same.
Qed.

(** C6, amended. When the parser, having parsed a directive for a path,
    comes to another directive for the same path, parsing raises the
    duplicate-path error at the second directive, whichever kinds the two
    directives have (Update, Add or Delete), given any budget of loop
    iterations that is large enough. No file content has been computed
    by then: the applicator returns this error, and no other, after the
    read operations alone. Texts in which an earlier error or the end
    marker stops the parser before the second directive are left out. *)
Theorem duplicate_path_raises (text : string) (orig : Dict.t string)
        (pA pA' pB : Parser) (d1 d2 : Directive) (path : string)
        (fuelA : nat) :
  Str.startswith text "*** Begin Patch" = true ->
  reaches (start_state orig text) pA ->
  at_directive pA d1 path ->
  parse_directive fuelA pA = Ret pA' ->
  reaches pA' pB ->
  at_directive pB d2 path ->
  exists fuel0,
    (forall fuel, fuel0 <= fuel ->
       text_to_patch fuel text orig = Raise (EDiff (DuplicatePath d2 path)))
    /\ (forall World open_fn write_fn remove_fn (s s1 : Sys World),
           read_all World open_fn (identify_files_needed text) Dict.empty s
           = (Ret orig, s1) ->
           (exists opened, log s1 = log s ++ map Opened opened)
           /\ forall fuel, fuel0 <= fuel ->
                process_patch World open_fn write_fn remove_fn fuel text s
                = (Raise (EDiff (DuplicatePath d2 path)), s1)).
Proof.
  intros Hstart HrA HatA Hparse HrB HatB.
  assert (Hmem : Dict.mem path (patch pB) = true).
  { apply (reaches_keeps_path path pA' pB HrB).
    exact (parse_directive_path fuelA pA pA' d1 path HatA Hparse). }
  assert (Hreach : reaches (start_state orig text) pB).
  { apply (reaches_trans _ pA _ HrA).
    apply (reaches_next pA pA' pB fuelA);
      [exact (at_directive_not_done pA d1 path HatA)|assumption|assumption]. }
  assert (HatB' : exists f0, forall fuel, f0 <= fuel ->
             parse_loop fuel pB = Raise (EDiff (DuplicatePath d2 path))).
  { exists 1. intros [|n] Hle; [lia|]. simpl.
    rewrite (at_directive_not_done pB d2 path HatB).
    now rewrite (parse_directive_duplicate pB d2 path HatB Hmem n). }
  destruct (reaches_outcome _ _ _ Hreach HatB') as [f1 Hf1].
  assert (Htext : forall fuel, f1 <= fuel ->
             text_to_patch fuel text orig
             = Raise (EDiff (DuplicatePath d2 path))).
  { intros fuel Hle. unfold text_to_patch, parse. rewrite Hstart. simpl.
    change (if startswith (new_Parser orig (Str.splitlines text))
                          "*** Begin Patch"
            then advance (new_Parser orig (Str.splitlines text))
            else new_Parser orig (Str.splitlines text))
      with (start_state orig text).
    now rewrite (Hf1 fuel Hle). }
  exists f1. split; [exact Htext|].
  intros World open_fn write_fn remove_fn s s1 Hread. split.
  - eapply read_all_log. eassumption.
  - intros fuel Hle. unfold process_patch. rewrite Hstart. simpl.
    now rewrite Hread, (Htext fuel Hle).
Qed.

(** An Update of [a.py] whose hunk matches nothing, then a Delete of
    [a.py]: the error is the duplicate path, not the hunk. *)
Lemma duplicate_path_raises_witness :
  exists fuel0,
    (forall fuel, fuel0 <= fuel ->
       text_to_patch fuel duplicate_patch scenario_snapshot
       = Raise (EDiff (DuplicatePath DeleteFile "a.py")))
    /\ (forall World open_fn write_fn remove_fn (s s1 : Sys World),
           read_all World open_fn (identify_files_needed duplicate_patch)
                    Dict.empty s
           = (Ret scenario_snapshot, s1) ->
           (exists opened, log s1 = log s ++ map Opened opened)
           /\ forall fuel, fuel0 <= fuel ->
                process_patch World open_fn write_fn remove_fn fuel
                              duplicate_patch s
                = (Raise (EDiff (DuplicatePath DeleteFile "a.py")), s1)).
Proof.
  eapply (duplicate_path_raises duplicate_patch scenario_snapshot
            _ _ _ UpdateFile DeleteFile "a.py" 4).
  - reflexivity.
  - apply reaches_here.
  - repeat split.
  - reflexivity.
  - apply reaches_here.
  - repeat split.
Defined.

(** C6 as stated fails when the parser does not come to the second
    directive: a Delete and an Add of a path that the snapshot does not
    hold raise the missing-file error, and two directives for one path
    after the end marker raise nothing. *)
Lemma duplicate_path_counterexample :
  (forall fuel, 1 <= fuel ->
     text_to_patch fuel missing_duplicate_patch []
     = Raise (EDiff (MissingFile DeleteFile "gone.py")))
  /\ (forall fuel, 1 <= fuel ->
        text_to_patch fuel after_end_patch [] = Ret ([], 0)).
Proof.
  split; intros [|n] H; solve [inversion H|reflexivity].
Qed.

(** ** Rename targets are not empty *)

Lemma set_Forall {V} (Q : V -> Prop) (k : string) (v : V) (d : Dict.t V) :
  Forall (fun kv => Q (snd kv)) d -> Q v ->
  Forall (fun kv => Q (snd kv)) (Dict.set k v d).
Proof.
  intros Hd Hv. induction d as [|[k' v'] d IH]; simpl.
  - constructor; [assumption|constructor].
  - inversion Hd; subst. destruct (String.eqb k k'); constructor;
      try assumption. now apply IH.
Qed.

Lemma parse_update_loop_move_path :
  forall fuel p a a' p',
    parse_update_loop fuel p a = Ret (a', p') -> move_path a' = move_path a.
Proof.
  induction fuel as [|fuel IH]; intros p a a' p' H; simpl in H;
    [discriminate|].
  destruct (is_done p ["*** "]); [now injection H as <- _|].
  destruct (startswith p "@@ "); [|eapply IH; eassumption].
  destruct (parse_chunk fuel (advance p) (mkChunk 0 [] []))
    as [[c p1]|e|]; simpl in H; try discriminate.
  apply IH in H. exact H.
Qed.

(** Every directive that is parsed registers an action whose rename
    target, if any, is not empty. *)
Lemma parse_directive_rename_ok (fuel : nat) (p p1 : Parser) :
  parse_directive fuel p = Ret p1 ->
  Forall (fun kv => rename_ok (move_path (snd kv)) = true) (patch p) ->
  Forall (fun kv => rename_ok (move_path (snd kv)) = true) (patch p1).
Proof.
  unfold parse_directive. intros H Hok.
  destruct (read_str p "*** Update File: " false) as [[path q1]|e|] eqn:R1;
    simpl in H; try discriminate.
  pose proof (read_str_patch _ _ _ _ _ R1) as F1.
  destruct (Str.truthy path).
  - destruct (Dict.mem path (patch q1)); [discriminate|].
    destruct (read_str q1 "*** Move to: " false) as [[mv q2]|e|] eqn:R2;
      simpl in H; try discriminate.
    pose proof (read_str_patch _ _ _ _ _ R2) as F2.
    destruct (negb (Dict.mem path (current_files q2))); [discriminate|].
    destruct (Dict.get path (current_files q2)) as [text|]; [|discriminate].
    unfold parse_update_file in H.
    destruct (parse_update_loop fuel q2 _) as [[a q3]|e|] eqn:R3;
      simpl in H; try discriminate.
    pose proof (parse_update_loop_patch _ _ _ _ _ R3) as F3.
    apply parse_update_loop_move_path in R3. simpl in R3.
    injection H as <-. simpl. rewrite F3, F2, F1.
    apply (set_Forall (fun a => rename_ok (move_path a) = true));
      [assumption|].
    destruct (Str.truthy mv) eqn:Hmv; simpl; [assumption|now rewrite R3].
  - destruct (read_str q1 "*** Add File: " false) as [[path2 q2]|e|] eqn:R2;
      simpl in H; try discriminate.
    pose proof (read_str_patch _ _ _ _ _ R2) as F2.
    destruct (Str.truthy path2).
    + destruct (Dict.mem path2 (patch q2)); [discriminate|].
      unfold parse_add_file in H.
      destruct (parse_add_loop fuel q2 []) as [[ls q3]|e|] eqn:R3;
        simpl in H; try discriminate.
      apply parse_add_loop_patch in R3.
      injection H as <-. simpl. rewrite R3, F2, F1.
      apply (set_Forall (fun a => rename_ok (move_path a) = true));
        [assumption|reflexivity].
    + destruct (read_str q2 "*** Delete File: " false)
        as [[path3 q3]|e|] eqn:R3; simpl in H; try discriminate.
      pose proof (read_str_patch _ _ _ _ _ R3) as F3.
      destruct (Str.truthy path3);
        [|destruct (at_end q3); discriminate].
      destruct (Dict.mem path3 (patch q3)); [discriminate|].
      destruct (negb (Dict.mem path3 (current_files q3))); [discriminate|].
      injection H as <-. simpl. rewrite F3, F2, F1.
      apply (set_Forall (fun a => rename_ok (move_path a) = true));
        [assumption|reflexivity].
Qed.

Lemma parse_loop_rename_ok :
  forall fuel p p',
    parse_loop fuel p = Ret p' ->
    Forall (fun kv => rename_ok (move_path (snd kv)) = true) (patch p) ->
    Forall (fun kv => rename_ok (move_path (snd kv)) = true) (patch p').
Proof.
  induction fuel as [|fuel IH]; intros p p' H Hok; simpl in H;
    [discriminate|].
  destruct (is_done p ["*** End Patch"]); [now injection H as <-|].
  destruct (parse_directive fuel p) as [p1|e|] eqn:Hd; simpl in H;
    try discriminate.
  eapply IH; [eassumption|]. eapply parse_directive_rename_ok; eassumption.
Qed.

Lemma build_changes_rename_ok (orig : Dict.t string) :
  forall actions commit commit',
    build_changes orig actions commit = Ret commit' ->
    Forall (fun kv => rename_ok (move_path (snd kv)) = true) actions ->
    Forall (fun kv => rename_ok (fc_move_path (snd kv)) = true) commit ->
    Forall (fun kv => rename_ok (fc_move_path (snd kv)) = true) commit'.
Proof.
  induction actions as [|[path a] rest IH]; intros commit commit' H Ha Hc;
    simpl in H; [now injection H as <-|].
  inversion Ha as [|? ? Hhead Hrest]; subst. simpl in Hhead.
  destruct (type a).
  - eapply IH; [eassumption|assumption|].
    apply (set_Forall (fun c => rename_ok (fc_move_path c) = true));
      [assumption|reflexivity].
  - destruct (lookup path orig) as [old|e|]; simpl in H; try discriminate.
    eapply IH; [eassumption|assumption|].
    apply (set_Forall (fun c => rename_ok (fc_move_path c) = true));
      [assumption|reflexivity].
  - destruct (lookup path orig) as [old|e|]; simpl in H; try discriminate.
    destruct (_get_updated_file old a path) as [new|e|]; simpl in H;
      try discriminate.
    eapply IH; [eassumption|assumption|].
    apply (set_Forall (fun c => rename_ok (fc_move_path c) = true));
      [assumption|assumption].
Qed.

(** In the commit built from a parsed patch no change has an empty
    rename target: the applicator renames whenever a target is there. *)
Lemma commit_rename_ok (fuel : nat) (text : string) (orig : Dict.t string)
      (pt : Patch) (fz : nat) (commit : Commit) :
  text_to_patch fuel text orig = Ret (pt, fz) ->
  patch_to_commit pt orig = Ret commit ->
  Forall (fun kv => rename_ok (fc_move_path (snd kv)) = true) commit.
Proof.
  unfold text_to_patch, parse, patch_to_commit. intros Hp Hc.
  destruct (negb (Str.startswith text "*** Begin Patch")); [discriminate|].
  destruct (parse_loop fuel _) as [p'|e|] eqn:Hl; simpl in Hp;
    try discriminate.
  injection Hp as <- _.
  eapply build_changes_rename_ok; [eassumption| |constructor].
  eapply parse_loop_rename_ok; [eassumption|].
  destruct (startswith _ _); constructor.
Qed.

(** ** A whole Add File directive *)

(** From the directive line on: the action registered for the path holds
    the body without its empty lines. *)
Lemma add_directive_registers_body (p : Parser) (pre body rest : list string)
      (path : string) (fuel : nat) :
  stands_at p pre (String.append "*** Add File: " path :: body ++ rest) ->
  Str.truthy path = true ->
  Dict.mem path (patch p) = false ->
  Forall (fun l => Str.startswith l "*** " = false) body ->
  body_end rest ->
  List.length body < fuel ->
  parse_directive fuel p
  = Ret (register (seek p (List.length pre + 1 + List.length body)) path
           (mkPatchAction ADD
              (Some (Str.join Str.LF (filter Str.truthy body))) [] None)).
Proof.
  intros Hp Ht Hm Hb Hend Hf.
  pose proof (stands_at_current _ _ _ _ Hp) as [He Hc].
  unfold parse_directive.
  not_prefix p "*** Update File: " He Hc.
  rewrite (read_str_prefix p _ path He Hc). cbn [bind]. rewrite Ht.
  cbn [patch advance]. rewrite Hm.
  unfold parse_add_file.
  rewrite (parse_add_loop_body body (advance p)
             (pre ++ [String.append "*** Add File: " path]) rest [] fuel);
    [|now apply stands_at_advance|assumption|assumption|assumption].
  cbn [bind]. rewrite seek_advance, length_app. reflexivity.
Qed.

(** * Further properties of the code *)

(** ** What parsing keeps *)

Lemma follows_refl (p : Parser) : follows p p.
Proof. repeat split. apply Nat.le_refl. Qed.

Lemma follows_trans (p q r : Parser) :
  follows p q -> follows q r -> follows p r.
Proof.
  intros (Hl & Hc & Hf & Hi) (Hl' & Hc' & Hf' & Hi').
  repeat split; try congruence. lia.
Qed.

Lemma follows_advance (p : Parser) : follows p (advance p).
Proof. repeat split. simpl. lia. Qed.

Lemma read_str_follows (p p' : Parser) (pre s : string) (b : bool) :
  read_str p pre b = Ret (s, p') -> follows p p'.
Proof.
  unfold read_str. destruct (at_end p); [discriminate|].
  destruct (Str.startswith (current p) pre); intros H; injection H as _ <-;
    [apply follows_advance|apply follows_refl].
Qed.

(** A read that returns a string that is not empty took it from the
    current line, which has the prefix, and passed that line. *)
Lemma read_str_truthy (p p' : Parser) (pre s : string) :
  read_str p pre false = Ret (s, p') -> Str.truthy s = true ->
  at_end p = false /\ Str.startswith (current p) pre = true
  /\ s = Str.drop (String.length pre) (current p) /\ p' = advance p.
Proof.
  unfold read_str. destruct (at_end p); [discriminate|].
  destruct (Str.startswith (current p) pre); intros H Ht;
    injection H as <- <-; [repeat split|discriminate].
Qed.

Lemma parse_chunk_follows :
  forall fuel p c c' p',
    parse_chunk fuel p c = Ret (c', p') -> follows p p'.
Proof.
  induction fuel as [|fuel IH]; intros p c c' p' H; simpl in H;
    [discriminate|].
  destruct (is_done p ["@@ "; "*** "]);
    [injection H as _ <-; apply follows_refl|].
  destruct (read_str p "" true) as [[line p1]|e|] eqn:Hr; simpl in H;
    try discriminate.
  apply read_str_follows in Hr.
  destruct (Str.truthy line); simpl in H.
  - apply IH in H. eapply follows_trans; eassumption.
  - injection H as _ <-. assumption.
Qed.

Lemma parse_update_loop_follows :
  forall fuel p a a' p',
    parse_update_loop fuel p a = Ret (a', p') ->
    follows p p' /\ type a' = type a /\ new_file a' = new_file a
    /\ move_path a' = move_path a.
Proof.
  induction fuel as [|fuel IH]; intros p a a' p' H; simpl in H;
    [discriminate|].
  destruct (is_done p ["*** "]).
  { injection H as <- <-. repeat split. apply Nat.le_refl. }
  destruct (startswith p "@@ "); [|eapply IH; eassumption].
  destruct (parse_chunk fuel (advance p) (mkChunk 0 [] []))
    as [[c p1]|e|] eqn:Hc; simpl in H; try discriminate.
  apply parse_chunk_follows in Hc. apply IH in H.
  destruct H as (Hf & Ht & Hn & Hm). split; [|tauto].
  eapply follows_trans; [apply follows_advance|].
  eapply follows_trans; eassumption.
Qed.

Lemma parse_add_loop_follows :
  forall fuel p ls ls' p',
    parse_add_loop fuel p ls = Ret (ls', p') -> follows p p'.
Proof.
  induction fuel as [|fuel IH]; intros p ls ls' p' H; simpl in H;
    [discriminate|].
  destruct (is_done p ["*** "]);
    [injection H as _ <-; apply follows_refl|].
  destruct (read_str p "" false) as [[line p1]|e|] eqn:Hr; simpl in H;
    try discriminate.
  apply read_str_follows in Hr. apply IH in H.
  eapply follows_trans; eassumption.
Qed.

Lemma current_in_lines (p : Parser) :
  at_end p = false -> In (current p) (lines p).
Proof.
  unfold at_end, current. intros H. apply Nat.leb_gt in H.
  apply nth_In. assumption.
Qed.

Lemma follows_in_lines (p q : Parser) :
  follows p q -> at_end q = false -> In (current q) (lines p).
Proof.
  intros (Hl & _) He. rewrite <- Hl. now apply current_in_lines.
Qed.

Lemma mem_get {V} (k : string) (d : Dict.t V) :
  Dict.mem k d = true -> exists v, Dict.get k d = Some v.
Proof.
  induction d as [|[k' v'] d IH]; simpl; [discriminate|].
  destruct (String.eqb k k'); [intros _; eexists; reflexivity|assumption].
Qed.

(** A directive that is parsed: the action it registers, where the
    parser is left, and the line the path was read from. *)
Lemma parse_directive_ret (fuel : nat) (p p1 : Parser) :
  parse_directive fuel p = Ret p1 ->
  exists path a q line,
    p1 = register q path a
    /\ follows p q /\ patch q = patch p /\ index p < index q
    /\ Dict.mem path (patch p) = false
    /\ In line (lines p) /\ from_line line path a
    /\ (type a <> ADD -> Dict.mem path (current_files p) = true).
Proof.
  unfold parse_directive. intros H.
  destruct (read_str p "*** Update File: " false) as [[path q1]|e|] eqn:R1;
    cbn [bind] in H; try discriminate.
  pose proof (read_str_patch _ _ _ _ _ R1) as F1.
  pose proof (read_str_follows _ _ _ _ _ R1) as G1.
  destruct (Str.truthy path) eqn:T1.
  - destruct (read_str_truthy _ _ _ _ R1 T1) as (E1 & S1 & Hpath & ->).
    destruct (Dict.mem path (patch (advance p))) eqn:M; [discriminate|].
    destruct (read_str (advance p) "*** Move to: " false)
      as [[mv q2]|e|] eqn:R2; cbn [bind] in H; try discriminate.
    pose proof (read_str_patch _ _ _ _ _ R2) as F2.
    pose proof (read_str_follows _ _ _ _ _ R2) as G2.
    destruct (Dict.mem path (current_files q2)) eqn:Mc; cbn [negb] in H;
      [|discriminate].
    destruct (Dict.get path (current_files q2)) as [text|]; [|discriminate].
    unfold parse_update_file in H.
    destruct (parse_update_loop fuel q2 _) as [[a q3]|e|] eqn:R3;
      cbn [bind] in H; try discriminate.
    pose proof (parse_update_loop_patch _ _ _ _ _ R3) as F3.
    apply parse_update_loop_follows in R3 as (G3 & Ty & Nf & Mp).
    cbn [type] in Ty. injection H as <-.
    assert (G : follows p q3).
    { eapply follows_trans; [exact G1|].
      eapply follows_trans; [exact G2|exact G3]. }
    exists path, (if Str.truthy mv then with_move_path a mv else a), q3,
      (current p).
    split; [reflexivity|]. split; [exact G|].
    split; [cbn [patch advance] in *; congruence|]. split.
    { destruct G2 as (_ & _ & _ & I2). destruct G3 as (_ & _ & _ & I3).
      cbn [index advance] in I2. lia. }
    split; [exact M|]. split; [apply current_in_lines; exact E1|].
    split.
    { unfold from_line.
      replace (type (if Str.truthy mv then with_move_path a mv else a))
        with UPDATE by (destruct (Str.truthy mv); cbn [type with_move_path];
                        congruence).
      split; [exact S1|exact Hpath]. }
    intros _. destruct G2 as (_ & C2 & _). cbn [current_files advance] in C2.
    now rewrite <- C2.
  - destruct (read_str q1 "*** Add File: " false) as [[path2 q2]|e|] eqn:R2;
      cbn [bind] in H; try discriminate.
    pose proof (read_str_patch _ _ _ _ _ R2) as F2.
    pose proof (read_str_follows _ _ _ _ _ R2) as G2.
    destruct (Str.truthy path2) eqn:T2.
    + destruct (read_str_truthy _ _ _ _ R2 T2) as (E2 & S2 & Hpath & ->).
      destruct (Dict.mem path2 (patch (advance q1))) eqn:M; [discriminate|].
      unfold parse_add_file in H.
      destruct (parse_add_loop fuel (advance q1) []) as [[ls q3]|e|] eqn:R3;
        cbn [bind] in H; try discriminate.
      pose proof (parse_add_loop_patch _ _ _ _ _ R3) as F3.
      apply parse_add_loop_follows in R3.
      injection H as <-.
      assert (G : follows p q3).
      { eapply follows_trans; [exact G1|].
        eapply follows_trans; [apply follows_advance|exact R3]. }
      exists path2,
        (mkPatchAction ADD (Some (Str.join Str.LF ls)) [] None), q3,
        (current q1).
      split; [reflexivity|]. split; [exact G|].
      split; [cbn [patch advance] in *; congruence|]. split.
      { destruct G1 as (_ & _ & _ & I1). destruct R3 as (_ & _ & _ & I3).
        cbn [index advance] in I3. lia. }
      split; [cbn [patch advance] in M; congruence|].
      split; [exact (follows_in_lines p q1 G1 E2)|].
      split; [split; [exact S2|exact Hpath]|].
      cbn [type]. congruence.
    + destruct (read_str q2 "*** Delete File: " false)
        as [[path3 q3]|e|] eqn:R3; cbn [bind] in H; try discriminate.
      pose proof (read_str_patch _ _ _ _ _ R3) as F3.
      destruct (Str.truthy path3) eqn:T3;
        [|destruct (at_end _); discriminate].
      destruct (read_str_truthy _ _ _ _ R3 T3) as (E3 & S3 & Hpath & ->).
      destruct (Dict.mem path3 (patch (advance q2))) eqn:M; [discriminate|].
      destruct (Dict.mem path3 (current_files (advance q2))) eqn:Mc;
        cbn [negb] in H; [|discriminate].
      injection H as <-.
      assert (G : follows p q2) by (eapply follows_trans; eassumption).
      exists path3, (mkPatchAction DELETE None [] None), (advance q2),
        (current q2).
      split; [reflexivity|].
      split; [eapply follows_trans; [exact G|apply follows_advance]|].
      split; [cbn [patch advance] in *; congruence|]. split.
      { destruct G as (_ & _ & _ & I). cbn [index advance]. lia. }
      split; [cbn [patch advance] in M; congruence|].
      split; [exact (follows_in_lines p q2 G E3)|].
      split; [split; [exact S3|exact Hpath]|].
      intros _. destruct G as (_ & C & _).
      cbn [current_files advance] in Mc. now rewrite <- C.
Qed.

(** ** The patch that parsing returns *)

Lemma mem_false_not_in {V} (k : string) (d : Dict.t V) :
  Dict.mem k d = false -> ~ In k (map fst d).
Proof.
  induction d as [|[k' v'] d IH]; simpl; [tauto|].
  destruct (String.eqb k k') eqn:E; [discriminate|].
  intros H [Hk|Hin]; [|now apply IH].
  subst k'. rewrite String.eqb_refl in E. discriminate.
Qed.

Lemma not_in_mem_false {V} (k : string) (d : Dict.t V) :
  ~ In k (map fst d) -> Dict.mem k d = false.
Proof.
  induction d as [|[k' v'] d IH]; simpl; [reflexivity|].
  intros H. destruct (String.eqb k k') eqn:E.
  - apply String.eqb_eq in E. subst k'. tauto.
  - apply IH. tauto.
Qed.

(** Setting a key that is not there appends it. *)
Lemma set_new {V} (k : string) (v : V) (d : Dict.t V) :
  Dict.mem k d = false -> Dict.set k v d = d ++ [(k, v)].
Proof.
  induction d as [|[k' v'] d IH]; simpl; [reflexivity|].
  destruct (String.eqb k k'); [discriminate|].
  intros H. now rewrite IH.
Qed.

Lemma parse_directive_well_formed (fuel : nat) (p p1 : Parser) :
  parse_directive fuel p = Ret p1 ->
  well_formed (lines p) (current_files p) (patch p) ->
  follows p p1 /\ index p < index p1
  /\ well_formed (lines p) (current_files p) (patch p1).
Proof.
  intros H [Hnd Hall].
  apply parse_directive_ret in H
    as (path & a & q & line & -> & G & F & I & M & Hin & Hfrom & Hsnap).
  split; [exact G|]. split; [exact I|].
  cbn [patch register]. rewrite F, (set_new path a (patch p) M).
  split.
  - rewrite map_app. cbn [map fst].
    apply NoDup_app; [exact Hnd|repeat constructor; intros []|].
    intros k Hk [<-|[]]. now apply (mem_false_not_in _ _ M).
  - apply Forall_app. split; [exact Hall|].
    constructor; [|constructor]. cbn [fst snd].
    split; [exists line; split; assumption|exact Hsnap].
Qed.

Lemma parse_loop_well_formed :
  forall fuel p p',
    parse_loop fuel p = Ret p' ->
    well_formed (lines p) (current_files p) (patch p) ->
    follows p p' /\ well_formed (lines p) (current_files p) (patch p').
Proof.
  induction fuel as [|fuel IH]; intros p p' H Hwf; simpl in H;
    [discriminate|].
  destruct (is_done p ["*** End Patch"]).
  { injection H as <-. split; [apply follows_refl|exact Hwf]. }
  destruct (parse_directive fuel p) as [p1|e|] eqn:Hd; cbn [bind] in H;
    try discriminate.
  destruct (parse_directive_well_formed _ _ _ Hd Hwf) as (G & _ & Hwf1).
  pose proof G as (Hl & Hc & _).
  rewrite <- Hl, <- Hc in Hwf1.
  destruct (IH p1 p' H Hwf1) as [G' Hwf'].
  split; [eapply follows_trans; eassumption|].
  now rewrite Hl, Hc in Hwf'.
Qed.

(** What every patch that [text_to_patch] returns has. *)
Lemma text_to_patch_well_formed (fuel : nat) (text : string)
      (orig : Dict.t string) (pt : Patch) (fz : nat) :
  text_to_patch fuel text orig = Ret (pt, fz) ->
  fz = 0 /\ well_formed (Str.splitlines text) orig pt.
Proof.
  unfold text_to_patch, parse. intros H.
  destruct (negb (Str.startswith text "*** Begin Patch")); [discriminate|].
  destruct (parse_loop fuel _) as [p'|e|] eqn:Hl; cbn [bind] in H;
    try discriminate.
  injection H as <- <-.
  apply parse_loop_well_formed in Hl.
  - destruct Hl as [(Hl & Hc & Hf & _) Hwf].
    destruct (startswith _ _); cbn in Hf, Hwf; split; assumption.
  - destruct (startswith _ _); split; constructor.
Qed.

(** X1. The fuzz that [text_to_patch] returns is 0 for every text and
    snapshot: nothing in the parser changes the counter. *)
Theorem parsed_fuzz_is_zero (fuel : nat) (text : string)
        (orig : Dict.t string) (pt : Patch) (fz : nat) :
  text_to_patch fuel text orig = Ret (pt, fz) -> fz = 0.
Proof.
  intros H. unfold text_to_patch, parse in H.
  destruct (negb (Str.startswith text "*** Begin Patch")); [discriminate|].
  destruct (parse_loop fuel _) as [p'|e|] eqn:Hl; cbn [bind] in H;
    try discriminate.
  injection H as _ <-.
  assert (Hw : well_formed
                 (lines (start_state orig text))
                 (current_files (start_state orig text))
                 (patch (start_state orig text))).
  { unfold start_state. destruct (startswith _ _); split; constructor. }
  destruct (parse_loop_well_formed fuel (start_state orig text) p' Hl Hw)
    as [(_ & _ & Hf & _) _].
  rewrite Hf. unfold start_state. destruct (startswith _ _); reflexivity.
Qed.

Lemma parsed_fuzz_is_zero_witness :
  text_to_patch 8 scenario_patch scenario_snapshot
  = Ret ([("a.py", update_of [mkChunk 0 ["x"; "y"; "z"] ["x"; "w"; "z"]])],
         0)
  /\ 0 = 0.
Proof.
  split; [reflexivity|].
  exact (parsed_fuzz_is_zero 8 scenario_patch scenario_snapshot _ 0
           eq_refl).
Defined.

(** ** The paths of a patch and the identify functions *)

Lemma files_needed_update (ls : list string) (line : string) :
  In line ls -> Str.startswith line "*** Update File: " = true ->
  In (Str.drop (String.length "*** Update File: ") line) (files_needed ls).
Proof.
  induction ls as [|l ls IH]; intros Hin Hs; [contradiction|].
  destruct Hin as [->|Hin]; simpl.
  - rewrite Hs. left. reflexivity.
  - destruct (Str.startswith l "*** Update File: ");
      [right; now apply IH|].
    destruct (Str.startswith l "*** Delete File: ");
      [right; now apply IH|now apply IH].
Qed.

Lemma files_needed_delete (ls : list string) (line : string) :
  In line ls -> Str.startswith line "*** Delete File: " = true ->
  In (Str.drop (String.length "*** Delete File: ") line) (files_needed ls).
Proof.
  induction ls as [|l ls IH]; intros Hin Hs; [contradiction|].
  destruct Hin as [->|Hin]; simpl.
  - rewrite Hs. destruct (Str.startswith line "*** Update File: ");
      left; reflexivity.
  - destruct (Str.startswith l "*** Update File: ");
      [right; now apply IH|].
    destruct (Str.startswith l "*** Delete File: ");
      [right; now apply IH|now apply IH].
Qed.

Lemma files_added_add (ls : list string) (line : string) :
  In line ls -> Str.startswith line "*** Add File: " = true ->
  In (Str.drop (String.length "*** Add File: ") line) (files_added ls).
Proof.
  induction ls as [|l ls IH]; intros Hin Hs; [contradiction|].
  destruct Hin as [->|Hin]; simpl.
  - rewrite Hs. left. reflexivity.
  - destruct (Str.startswith l "*** Add File: ");
      [right; now apply IH|now apply IH].
Qed.

(** X2. Every path of a patch that [text_to_patch] returns is listed by
    the identify functions on the same text: the path of an Add action by
    [identify_files_added], the path of an Update or Delete action by
    [identify_files_needed]. *)
Theorem parsed_paths_identified (fuel : nat) (text : string)
        (orig : Dict.t string) (pt : Patch) (fz : nat) :
  text_to_patch fuel text orig = Ret (pt, fz) ->
  Forall (fun kv =>
            match type (snd kv) with
            | ADD => In (fst kv) (identify_files_added text)
            | _ => In (fst kv) (identify_files_needed text)
            end) pt.
Proof.
  intros H. apply text_to_patch_well_formed in H as (_ & _ & Hall).
  eapply Forall_impl; [|exact Hall].
  intros [k a] [(line & Hin & Hfrom) _]. cbn [fst snd] in *.
  unfold from_line in Hfrom. unfold identify_files_added,
    identify_files_needed.
  destruct (type a); destruct Hfrom as [Hs ->].
  - now apply files_added_add.
  - now apply files_needed_delete.
  - now apply files_needed_update.
Qed.

Lemma parsed_paths_identified_witness :
  Forall (fun kv =>
            match type (snd kv) with
            | ADD => In (fst kv) (identify_files_added (Str.unlines add_lines))
            | _ => In (fst kv) (identify_files_needed (Str.unlines add_lines))
            end)
         [("n.txt",
           mkPatchAction ADD
             (Some (String.append "hello" (String.append Str.LF "world")))
             [] None)].
Proof.
  exact (parsed_paths_identified 8 (Str.unlines add_lines) [] _ 0 eq_refl).
Defined.

(** ** Building the commit of a parsed patch *)

Lemma build_changes_no_key_error (orig : Dict.t string) :
  forall actions commit,
    Forall (fun kv => type (snd kv) <> ADD ->
                      Dict.mem (fst kv) orig = true) actions ->
    (exists c, build_changes orig actions commit = Ret c)
    \/ (exists path, In path (map fst actions)
                     /\ build_changes orig actions commit
                        = Raise (EDiff (FailedToApplyChunk path))).
Proof.
  induction actions as [|[k a] rest IH]; intros commit Hall.
  - left. eexists. reflexivity.
  - inversion Hall as [|? ? Hhead Hrest]; subst. cbn [fst snd] in Hhead.
    assert (Hstep : forall c',
               (exists c, build_changes orig rest c' = Ret c)
               \/ (exists path, In path (map fst ((k, a) :: rest))
                                /\ build_changes orig rest c'
                                   = Raise (EDiff (FailedToApplyChunk path)))).
    { intros c'. destruct (IH c' Hrest) as [Hok|(path & Hin & Hf)];
        [left; exact Hok|right; exists path; split; [right|]; assumption]. }
    simpl. destruct (type a) eqn:Ht.
    + apply Hstep.
    + destruct (mem_get k orig) as [old Hold]; [apply Hhead; discriminate|].
      unfold lookup. rewrite Hold. cbn [bind]. apply Hstep.
    + destruct (mem_get k orig) as [old Hold]; [apply Hhead; discriminate|].
      unfold lookup. rewrite Hold. cbn [bind].
      pose proof (get_updated_file_outcome old a k Ht) as Hout.
      destruct (_get_updated_file old a k) as [new|e|]; cbn [bind].
      * apply Hstep.
      * destruct Hout as [-> _]. right. exists k.
        split; [left; reflexivity|reflexivity].
      * contradiction.
Qed.

(** X3. For a patch that [text_to_patch] returns, [patch_to_commit]
    against the same snapshot returns a commit or fails to apply a chunk
    of one of the patch's paths: no lookup in the snapshot raises, as
    every Update and Delete path was found there while parsing. *)
Theorem parsed_patch_builds_or_fails_chunk (fuel : nat) (text : string)
        (orig : Dict.t string) (pt : Patch) (fz : nat) :
  text_to_patch fuel text orig = Ret (pt, fz) ->
  (exists commit, patch_to_commit pt orig = Ret commit)
  \/ (exists path, In path (map fst pt)
                   /\ patch_to_commit pt orig
                      = Raise (EDiff (FailedToApplyChunk path))).
Proof.
  intros H. apply text_to_patch_well_formed in H as (_ & _ & Hall).
  apply build_changes_no_key_error.
  eapply Forall_impl; [|exact Hall]. intros kv [_ Hs]. exact Hs.
Qed.

Lemma parsed_patch_builds_or_fails_chunk_witness :
  (exists commit,
      patch_to_commit
        [("a.py", update_of [mkChunk 0 ["no such line"] ["w"]])]
        scenario_snapshot = Ret commit)
  \/ (exists path,
         In path (map fst [("a.py",
                            update_of [mkChunk 0 ["no such line"] ["w"]])])
         /\ patch_to_commit
              [("a.py", update_of [mkChunk 0 ["no such line"] ["w"]])]
              scenario_snapshot
            = Raise (EDiff (FailedToApplyChunk path))).
Proof.
  exact (parsed_patch_builds_or_fails_chunk 8 no_match_patch
           scenario_snapshot _ 0 eq_refl).
Defined.

(** ** The commit and the patch it is built from *)

Lemma build_changes_builds (orig : Dict.t string) :
  forall actions commit0 commit,
    build_changes orig actions commit0 = Ret commit ->
    NoDup (map fst commit0 ++ map fst actions) ->
    exists added,
      commit = commit0 ++ added /\ Forall2 (builds orig) actions added.
Proof.
  induction actions as [|[k a] rest IH]; intros commit0 commit H Hnd.
  - simpl in H. injection H as <-. exists []. rewrite app_nil_r.
    split; [reflexivity|constructor].
  - assert (Hk : Dict.mem k commit0 = false).
    { apply not_in_mem_false. intros Hin.
      apply NoDup_remove_2 in Hnd. apply Hnd.
      apply in_or_app. left. exact Hin. }
    assert (Hnd' : forall c, NoDup (map fst (commit0 ++ [(k, c)])
                                        ++ map fst rest)).
    { intros c. rewrite map_app, <- app_assoc. exact Hnd. }
    assert (Hstep : forall c,
               build_changes orig rest (Dict.set k c commit0) = Ret commit ->
               builds orig (k, a) (k, c) ->
               exists added, commit = commit0 ++ added
                             /\ Forall2 (builds orig) ((k, a) :: rest) added).
    { intros c Hb Hc. rewrite (set_new k c commit0 Hk) in Hb.
      destruct (IH _ _ Hb (Hnd' c)) as (added & -> & Hall).
      exists ((k, c) :: added). rewrite <- app_assoc.
      split; [reflexivity|constructor; assumption]. }
    simpl in H. destruct (type a) eqn:Ht.
    + apply (Hstep _ H). split; [reflexivity|]. cbn [fst snd].
      rewrite Ht. reflexivity.
    + unfold lookup in H. destruct (Dict.get k orig) as [old|] eqn:Hold;
        cbn [bind] in H; [|discriminate].
      apply (Hstep _ H). split; [reflexivity|]. cbn [fst snd].
      rewrite Ht. exists old. split; [assumption|reflexivity].
    + unfold lookup in H. destruct (Dict.get k orig) as [old|] eqn:Hold;
        cbn [bind] in H; [|discriminate].
      destruct (_get_updated_file old a k) as [new|e|] eqn:Hnew;
        cbn [bind] in H; try discriminate.
      apply (Hstep _ H). split; [reflexivity|]. cbn [fst snd].
      rewrite Ht. exists old, new. repeat split; assumption.
Qed.

(** X4. A commit that [patch_to_commit] returns holds one change for
    every action of the patch, under the same path and in the same order:
    an Add change with the action's text as new content, a Delete change
    with the snapshot's content as old content, an Update change with the
    snapshot's content, the content rebuilt from the chunks, and the
    action's rename target. *)
Theorem commit_mirrors_patch (pt : Patch) (orig : Dict.t string)
        (commit : Commit) :
  NoDup (map fst pt) ->
  patch_to_commit pt orig = Ret commit ->
  Forall2 (builds orig) pt commit.
Proof.
  intros Hnd H. unfold patch_to_commit in H.
  destruct (build_changes_builds orig pt Dict.empty commit H Hnd)
    as (added & -> & Hall).
  exact Hall.
Qed.

Lemma commit_mirrors_patch_witness :
  Forall2 (builds [("test.py", Str.unlines ["a"; "b"; "c"])])
          [("test.py", update_of [mkChunk 0 ["a"; "b"] ["a"; "c"]])]
          [("test.py",
            mkFileChange UPDATE (Some (Str.unlines ["a"; "b"; "c"]))
                         (Some (Str.unlines ["a"; "c"; "c"])) None)].
Proof.
  apply commit_mirrors_patch.
  - constructor; [intros []|constructor].
  - reflexivity.
Defined.

(** ** What the applicator invokes *)

Section ApplicatorTrace.

Variable World : Type.
Variable open_fn : string -> World -> Outcome string * World.
Variable write_fn : string -> string -> World -> Outcome unit * World.
Variable remove_fn : string -> World -> Outcome unit * World.

Lemma apply_change_events (path : string) (change : FileChange)
      (s s' : Sys World) (u : unit) :
  apply_change World write_fn remove_fn path change s = (Ret u, s') ->
  log s' = log s ++ events_of (path, change).
Proof.
  unfold apply_change, events_of, call_write, call_remove.
  destruct (fc_type change).
  - destruct (write_fn _ _ _). intros H. now injection H as _ <-.
  - destruct (remove_fn _ _). intros H. now injection H as _ <-.
  - destruct (truthy_opt _).
    + destruct (write_fn _ _ _) as [[[]|e|] w]; try discriminate.
      cbn [world log]. destruct (remove_fn _ _). intros H.
      injection H as _ <-. cbn [log]. now rewrite <- app_assoc.
    + destruct (write_fn _ _ _). intros H. now injection H as _ <-.
Qed.

(** X5. A run of the applicator over a commit that ends without failure
    has invoked, for the changes in the order of the commit and for
    nothing else: remove on the path of a Delete, write on the path of an
    Add, write on the path of an Update without rename target, and write
    on the target then remove on the path of an Update with one. *)
Theorem applied_changes_trace :
  forall (changes : Commit) (s s' : Sys World) (r : string),
    apply_changes World write_fn remove_fn changes s = (Ret r, s') ->
    log s' = log s ++ flat_map events_of changes.
Proof.
  induction changes as [|[path change] rest IH]; intros s s' r H;
    simpl in H.
  - injection H as _ <-. simpl. now rewrite app_nil_r.
  - destruct (apply_change World write_fn remove_fn path change s)
      as [[u|e|] s1] eqn:Hc; try discriminate.
    apply apply_change_events in Hc. apply IH in H.
    rewrite H, Hc. cbn [flat_map]. now rewrite app_assoc.
Qed.

(** X6. The applicator stops at the first operation that fails: when the
    changes before one change are applied and that change fails, the run
    over the whole commit ends with that failure in the state the failed
    change left. The changes after it are not applied, and those before
    it are not undone. *)
Theorem applicator_stops_at_failure (pre post : Commit) (path : string)
        (change : FileChange) (s s1 s2 : Sys World) (t : string) (e : exn) :
  apply_changes World write_fn remove_fn pre s = (Ret t, s1) ->
  apply_change World write_fn remove_fn path change s1 = (Raise e, s2) ->
  apply_changes World write_fn remove_fn (pre ++ (path, change) :: post) s
  = (Raise e, s2).
Proof.
  revert s. induction pre as [|[p c] pre IH]; intros s Hpre Hfail;
    simpl in *.
  - injection Hpre as _ <-. now rewrite Hfail.
  - destruct (apply_change World write_fn remove_fn p c s) as [[u|e'|] s0];
      try discriminate.
    now apply IH.
Qed.

(** X7. The applicator writes and removes only once the whole commit is
    built: a run of [process_patch] either invoked nothing but read
    operations, or read every file, parsed the patch and built the commit
    without error before it applied the first change. *)
Theorem effects_only_after_build (fuel : nat) (text : string)
        (s s' : Sys World) (r : Outcome string) :
  process_patch World open_fn write_fn remove_fn fuel text s = (r, s') ->
  (exists opened, log s' = log s ++ map Opened opened
                  /\ forall v, r <> Ret v)
  \/ (exists orig s1 pt fz commit,
         read_all World open_fn (identify_files_needed text) Dict.empty s
         = (Ret orig, s1)
         /\ text_to_patch fuel text orig = Ret (pt, fz)
         /\ patch_to_commit pt orig = Ret commit
         /\ apply_changes World write_fn remove_fn commit s1 = (r, s')).
Proof.
  unfold process_patch. intros H.
  destruct (negb (Str.startswith text "*** Begin Patch")).
  { injection H as <- <-. left. exists []. simpl. rewrite app_nil_r.
    split; [reflexivity|discriminate]. }
  destruct (read_all World open_fn (identify_files_needed text) Dict.empty s)
    as [ro s1] eqn:Hread.
  destruct (read_all_log World open_fn _ _ _ _ _ Hread) as [opened Hlog].
  destruct ro as [orig|e|];
    [|injection H as <- <-; left; exists opened;
      split; [assumption|discriminate]..].
  destruct (text_to_patch fuel text orig) as [[pt fz]|e|] eqn:Hp;
    [|injection H as <- <-; left; exists opened;
      split; [assumption|discriminate]..].
  destruct (patch_to_commit pt orig) as [commit|e|] eqn:Hc;
    [|injection H as <- <-; left; exists opened;
      split; [assumption|discriminate]..].
  right. exists orig, s1, pt, fz, commit. repeat split; assumption.
Qed.

End ApplicatorTrace.

Lemma applied_changes_trace_witness :
  log (mkSys [("b", "2")] [Removed "a"; Written "b" "2"])
  = log (mkSys [("a", "old")] [])
        ++ flat_map events_of [("a", delete_gone); ("b", add_two)].
Proof.
  exact (applied_changes_trace Files files_write files_remove
           [("a", delete_gone); ("b", add_two)]
           (mkSys [("a", "old")] []) _ "Done!" eq_refl).
Defined.

(** An Add, a Delete of a file that is not there, an Add: the first file
    is written, the second Add is not applied. *)
Lemma applicator_stops_at_failure_witness :
  apply_changes Files files_write files_remove
    ([("a", add_one)] ++ ("gone", delete_gone) :: [("b", add_two)])
    (mkSys [] [])
  = (Raise (EKey "gone"),
     mkSys [("a", "1")] [Written "a" "1"; Removed "gone"]).
Proof.
  exact (applicator_stops_at_failure Files files_write files_remove
           [("a", add_one)] [("b", add_two)] "gone" delete_gone
           (mkSys [] []) _ _ "Done!" (EKey "gone") eq_refl eq_refl).
Defined.

Lemma effects_only_after_build_witness :
  (exists opened,
      log (mkSys scenario_snapshot [Opened "a.py"])
      = log (mkSys scenario_snapshot []) ++ map Opened opened
      /\ forall v, @Raise string (EDiff (FailedToApplyChunk "a.py")) <> Ret v)
  \/ (exists orig s1 pt fz commit,
         read_all Files files_open (identify_files_needed no_match_patch)
                  Dict.empty (mkSys scenario_snapshot [])
         = (Ret orig, s1)
         /\ text_to_patch 8 no_match_patch orig = Ret (pt, fz)
         /\ patch_to_commit pt orig = Ret commit
         /\ apply_changes Files files_write files_remove commit s1
            = (Raise (EDiff (FailedToApplyChunk "a.py")),
               mkSys scenario_snapshot [Opened "a.py"])).
Proof.
  exact (effects_only_after_build Files files_open files_write files_remove
           8 no_match_patch (mkSys scenario_snapshot []) _ _ eq_refl).
Defined.

(** ** Errors of the parser *)

Lemma read_str_raises (p : Parser) (pre : string) (b : bool) (e : exn) :
  read_str p pre b = Raise e ->
  at_end p = true
  /\ e = EDiff (IndexOutOfBounds (index p) (List.length (lines p))).
Proof.
  unfold read_str. destruct (at_end p);
    [|destruct (Str.startswith _ _); discriminate].
  intros H. injection H as <-. split; reflexivity.
Qed.

Lemma not_done_not_at_end (p : Parser) (prefixes : list string) :
  is_done p prefixes = false -> at_end p = false.
Proof. unfold is_done. destruct (at_end p); [discriminate|reflexivity]. Qed.

Lemma parse_chunk_no_raise :
  forall fuel p c e, parse_chunk fuel p c <> Raise e.
Proof.
  induction fuel as [|fuel IH]; intros p c e; simpl; [discriminate|].
  destruct (is_done p ["@@ "; "*** "]) eqn:Hd; [discriminate|].
  apply not_done_not_at_end in Hd. unfold read_str.
  rewrite Hd, startswith_empty. cbn [bind].
  destruct (Str.truthy (current p)); cbn [negb]; [apply IH|discriminate].
Qed.

Lemma parse_update_loop_no_raise :
  forall fuel p a e, parse_update_loop fuel p a <> Raise e.
Proof.
  induction fuel as [|fuel IH]; intros p a e; simpl; [discriminate|].
  destruct (is_done p ["*** "]); [discriminate|].
  destruct (startswith p "@@ "); [|apply IH].
  pose proof (parse_chunk_no_raise fuel (advance p) (mkChunk 0 [] [])) as Hc.
  destruct (parse_chunk fuel (advance p) (mkChunk 0 [] []))
    as [[c p1]|e'|]; cbn [bind];
    [apply IH|exfalso; exact (Hc e' eq_refl)|discriminate].
Qed.

Lemma parse_add_loop_no_raise :
  forall fuel p ls e, parse_add_loop fuel p ls <> Raise e.
Proof.
  induction fuel as [|fuel IH]; intros p ls e; simpl; [discriminate|].
  destruct (is_done p ["*** "]) eqn:Hd; [discriminate|].
  apply not_done_not_at_end in Hd. unfold read_str.
  rewrite Hd, startswith_empty. cbn [bind]. apply IH.
Qed.

Lemma bodies_free (fuel : nat) (p : Parser) (text : string) :
  (forall e, parse_update_file fuel p text <> Raise e)
  /\ (forall e, parse_add_file fuel p <> Raise e).
Proof.
  split; intros e.
  - unfold parse_update_file. apply parse_update_loop_no_raise.
  - unfold parse_add_file.
    pose proof (parse_add_loop_no_raise fuel p []) as H.
    destruct (parse_add_loop fuel p []) as [[ls q]|e'|]; cbn [bind];
      [discriminate|exfalso; exact (H e' eq_refl)|discriminate].
Qed.


(** The missing-file error names a path read from an Update or Delete
    line that the snapshot does not hold. *)
Lemma parse_directive_missing (fuel : nat) (p : Parser) (d : Directive)
      (path : string) :
  parse_directive fuel p = Raise (EDiff (MissingFile d path)) ->
  In path (files_needed (lines p))
  /\ Dict.mem path (current_files p) = false.
Proof.
  unfold parse_directive. intros H.
  destruct (read_str p "*** Update File: " false) as [[path1 q1]|e|] eqn:R1;
    cbn [bind] in H;
    [|apply read_str_raises in R1 as [_ ->]; discriminate|discriminate].
  pose proof (read_str_follows _ _ _ _ _ R1) as G1.
  destruct (Str.truthy path1) eqn:T1.
  - destruct (read_str_truthy _ _ _ _ R1 T1) as (E1 & S1 & Hpath & ->).
    destruct (Dict.mem path1 (patch (advance p))); [discriminate|].
    destruct (read_str (advance p) "*** Move to: " false)
      as [[mv q2]|e|] eqn:R2; cbn [bind] in H;
      [|apply read_str_raises in R2 as [_ ->]; discriminate|discriminate].
    apply read_str_follows in R2 as (_ & C2 & _).
    cbn [current_files advance] in C2.
    destruct (Dict.mem path1 (current_files q2)) eqn:Mc; cbn [negb] in H.
    + destruct (Dict.get path1 (current_files q2)); [|discriminate].
      pose proof (proj1 (bodies_free fuel q2 s)) as Hno.
      destruct (parse_update_file fuel q2 s) as [[a q3]|e|];
        cbn [bind] in H;
        [discriminate|exfalso; exact (Hno e eq_refl)|discriminate].
    + injection H as <- <-. rewrite C2 in Mc. split; [|exact Mc].
      rewrite Hpath. apply files_needed_update;
        [apply current_in_lines; exact E1|exact S1].
  - destruct (read_str q1 "*** Add File: " false) as [[path2 q2]|e|] eqn:R2;
      cbn [bind] in H;
      [|apply read_str_raises in R2 as [_ ->]; discriminate|discriminate].
    pose proof (read_str_follows _ _ _ _ _ R2) as G2.
    destruct (Str.truthy path2).
    + destruct (Dict.mem path2 (patch q2)); [discriminate|].
      pose proof (proj2 (bodies_free fuel q2 "")) as Hno.
      destruct (parse_add_file fuel q2) as [[a q3]|e|]; cbn [bind] in H;
        [discriminate|exfalso; exact (Hno e eq_refl)|discriminate].
    + destruct (read_str q2 "*** Delete File: " false)
        as [[path3 q3]|e|] eqn:R3; cbn [bind] in H;
        [|apply read_str_raises in R3 as [_ ->]; discriminate|discriminate].
      destruct (Str.truthy path3) eqn:T3;
        [|destruct (at_end _); discriminate].
      destruct (read_str_truthy _ _ _ _ R3 T3) as (E3 & S3 & Hpath & ->).
      destruct (Dict.mem path3 (patch (advance q2))); [discriminate|].
      destruct (Dict.mem path3 (current_files (advance q2))) eqn:Mc;
        cbn [negb] in H; [discriminate|].
      injection H as <- <-.
      assert (G : follows p q2) by (eapply follows_trans; eassumption).
      split.
      * rewrite Hpath. apply files_needed_delete;
          [exact (follows_in_lines p q2 G E3)|exact S3].
      * destruct G as (_ & C & _). cbn [current_files advance] in Mc.
        now rewrite <- C.
Qed.

Section ReadingKeys.

Variable World : Type.
Variable open_fn : string -> World -> Outcome string * World.

Lemma read_all_keys :
  forall paths d0 s orig s1,
    read_all World open_fn paths d0 s = (Ret orig, s1) ->
    forall k, In k paths \/ Dict.mem k d0 = true -> Dict.mem k orig = true.
Proof.
  induction paths as [|p rest IH]; intros d0 s orig s1 H k Hk; simpl in H.
  - injection H as <- _. destruct Hk as [[]|Hk]. exact Hk.
  - destruct (call_open World open_fn p s) as [[v| |] s2] eqn:Ho;
      try discriminate.
    apply (IH _ _ _ _ H k). destruct Hk as [[->|Hin]|Hm].
    + right. apply mem_set_same.
    + now left.
    + right. now apply mem_set_mono.
Qed.

End ReadingKeys.

Lemma parse_loop_missing :
  forall fuel p d path,
    parse_loop fuel p = Raise (EDiff (MissingFile d path)) ->
    In path (files_needed (lines p))
    /\ Dict.mem path (current_files p) = false.
Proof.
  induction fuel as [|fuel IH]; intros p d path H; simpl in H;
    [discriminate|].
  destruct (is_done p ["*** End Patch"]); [discriminate|].
  destruct (parse_directive fuel p) as [p1|e|] eqn:Hd; cbn [bind] in H;
    try discriminate.
  - apply parse_directive_ret in Hd
      as (k & a & q & line & -> & (Hl & Hc & _) & _).
    apply IH in H. cbn [lines current_files register] in H.
    now rewrite Hl, Hc in H.
  - injection H as ->. eapply parse_directive_missing. eassumption.
Qed.

(** X9. In [process_patch] the parser never raises the missing-file
    error: the snapshot it is given holds every path that
    [identify_files_needed] lists, and these are all the paths that an
    Update or Delete directive can name. A file that is missing shows as
    the failure of the read operation. *)
Theorem process_never_missing_file (World : Type)
        (open_fn : string -> World -> Outcome string * World)
        (text : string) (s s1 : Sys World) (orig : Dict.t string) :
  read_all World open_fn (identify_files_needed text) Dict.empty s
  = (Ret orig, s1) ->
  forall fuel d path,
    text_to_patch fuel text orig <> Raise (EDiff (MissingFile d path)).
Proof.
  intros Hread fuel d path H. unfold text_to_patch, parse in H.
  destruct (negb (Str.startswith text "*** Begin Patch")); [discriminate|].
  destruct (parse_loop fuel _) as [p'|e|] eqn:Hl; cbn [bind] in H;
    try discriminate.
  injection H as ->. apply parse_loop_missing in Hl as [Hin Hm].
  assert (Hk : Dict.mem path orig = true).
  { apply (read_all_keys World open_fn _ _ _ _ _ Hread). left.
    unfold identify_files_needed.
    destruct (startswith _ _); exact Hin. }
  destruct (startswith _ _); cbn in Hm; congruence.
Qed.

Lemma process_never_missing_file_witness :
  read_all Files files_open (identify_files_needed scenario_patch) Dict.empty
           (mkSys scenario_snapshot [])
  = (Ret scenario_snapshot, mkSys scenario_snapshot [Opened "a.py"])
  /\ (forall fuel d path,
         text_to_patch fuel scenario_patch scenario_snapshot
         <> Raise (EDiff (MissingFile d path))).
Proof.
  split; [reflexivity|].
  exact (process_never_missing_file Files files_open scenario_patch
           (mkSys scenario_snapshot []) _ scenario_snapshot eq_refl).
Defined.

(** X10. An Update directive that is not the last line of the patch, or
    a Delete directive, for a path that no directive has registered and
    that the snapshot does not hold, raises the missing-file error for
    that directive and path, before any line of a body is read. *)
Theorem missing_file_raised (p : Parser) (d : Directive) (path : string) :
  at_directive p d path ->
  d <> AddFile ->
  (d = UpdateFile -> S (index p) < List.length (lines p)) ->
  Dict.mem path (patch p) = false ->
  Dict.mem path (current_files p) = false ->
  forall fuel, parse_directive fuel p = Raise (EDiff (MissingFile d path)).
Proof.
  intros (He & Hc & Ht) Hd Hnext Hm Hs fuel. unfold parse_directive.
  destruct d; [|congruence|]; unfold directive_prefix in Hc.
  - rewrite (read_str_prefix p _ path He Hc). cbn [bind]. rewrite Ht.
    cbn [patch advance]. rewrite Hm.
    assert (He' : at_end (advance p) = false).
    { unfold at_end. cbn [index lines advance]. apply Nat.leb_gt.
      now apply Hnext. }
    unfold read_str. rewrite He'.
    destruct (Str.startswith (current (advance p)) "*** Move to: ");
      cbn [bind current_files advance]; now rewrite Hs.
  - not_prefix p "*** Update File: " He Hc.
    not_prefix p "*** Add File: " He Hc.
    rewrite (read_str_prefix p _ path He Hc). cbn [bind]. rewrite Ht.
    cbn [patch current_files advance]. now rewrite Hm, Hs.
Qed.

Lemma missing_file_raised_witness :
  at_directive (seek (new_Parser [] blank_top_lines) 1) DeleteFile "a.py"
  /\ (forall fuel,
         parse_directive fuel (seek (new_Parser [] blank_top_lines) 1)
         = Raise (EDiff (MissingFile DeleteFile "a.py"))).
Proof.
  split; [repeat split|].
  apply (missing_file_raised (seek (new_Parser [] blank_top_lines) 1)
           DeleteFile "a.py").
  - repeat split.
  - discriminate.
  - discriminate.
  - reflexivity.
  - reflexivity.
Defined.

(** X11. An Update directive on the last line of the patch, for a path
    that no directive has registered, raises the index error of
    [read_str], whether the snapshot holds the path or not: the optional
    Move line is read before the snapshot is consulted. *)
Theorem update_on_last_line (p : Parser) (path : string) :
  at_directive p UpdateFile path ->
  S (index p) = List.length (lines p) ->
  Dict.mem path (patch p) = false ->
  forall fuel,
    parse_directive fuel p
    = Raise (EDiff (IndexOutOfBounds (S (index p)) (List.length (lines p)))).
Proof.
  intros (He & Hc & Ht) Hlast Hm fuel. unfold parse_directive.
  unfold directive_prefix in Hc.
  rewrite (read_str_prefix p _ path He Hc). cbn [bind]. rewrite Ht.
  cbn [patch advance]. rewrite Hm.
  unfold read_str, at_end. cbn [index lines advance].
  rewrite Hlast, Nat.leb_refl. reflexivity.
Qed.

Lemma update_on_last_line_witness :
  at_directive (seek (new_Parser scenario_snapshot update_last_lines) 1)
               UpdateFile "a.py"
  /\ (forall fuel,
         parse_directive fuel
           (seek (new_Parser scenario_snapshot update_last_lines) 1)
         = Raise (EDiff (IndexOutOfBounds 2 2))).
Proof.
  split; [repeat split|].
  exact (update_on_last_line
           (seek (new_Parser scenario_snapshot update_last_lines) 1) "a.py"
           (conj eq_refl (conj eq_refl eq_refl)) eq_refl eq_refl).
Defined.

(** X12. A line at the top level that starts with none of the end marker
    and the three directive prefixes raises the parse error that names
    the line. The empty line is such a line. *)
Theorem unrecognised_line_raises (p : Parser) :
  at_end p = false ->
  existsb (Str.startswith (current p)) top_level_prefixes = false ->
  forall fuel,
    parse_loop (S fuel) p = Raise (EDiff (ParseError (current p))).
Proof.
  intros He Hx fuel. cbn [existsb top_level_prefixes] in Hx.
  apply orb_false_elim in Hx as [H0 Hx].
  apply orb_false_elim in Hx as [H1 Hx].
  apply orb_false_elim in Hx as [H2 Hx].
  apply orb_false_elim in Hx as [H3 _].
  cbn [parse_loop]. unfold is_done. rewrite He. cbn [existsb andb].
  rewrite H0. cbn [orb]. unfold parse_directive.
  rewrite (read_str_mismatch p _ He H1). cbn [bind Str.truthy].
  rewrite (read_str_mismatch p _ He H2). cbn [bind Str.truthy].
  rewrite (read_str_mismatch p _ He H3). cbn [bind Str.truthy].
  rewrite He. reflexivity.
Qed.

Lemma unrecognised_line_raises_witness :
  current (seek (new_Parser scenario_snapshot blank_top_lines) 2) = ""
  /\ (forall fuel,
         parse_loop (S fuel)
                    (seek (new_Parser scenario_snapshot blank_top_lines) 2)
         = Raise (EDiff (ParseError ""))).
Proof.
  split; [reflexivity|].
  exact (unrecognised_line_raises
           (seek (new_Parser scenario_snapshot blank_top_lines) 2)
           eq_refl eq_refl).
Defined.

(** A Delete line with an empty path that is the last line of the patch
    is passed by [read_str]; the message of the parse error then reads a
    line past the end, and the error is the index error of the list. *)
Example delete_empty_path_last_line :
  text_to_patch 3 (Str.join Str.LF ["*** Begin Patch"; "*** Delete File: "])
                []
  = Raise EIndex.
Proof. reflexivity. Qed.

(** ** Termination of the parser *)

Lemma remaining_advance (p : Parser) :
  at_end p = false -> S (remaining (advance p)) = remaining p.
Proof.
  unfold at_end, remaining. cbn [index lines advance]. intros H.
  apply Nat.leb_gt in H. lia.
Qed.

Lemma remaining_follows (p q : Parser) :
  follows p q -> remaining q <= remaining p.
Proof. intros (Hl & _ & _ & Hi). unfold remaining. rewrite Hl. lia. Qed.

Lemma remaining_zero (p : Parser) : remaining p = 0 -> at_end p = true.
Proof. unfold at_end, remaining. intros H. apply Nat.leb_le. lia. Qed.

(** The loop that fills a chunk passes a line in every iteration, and so
    does the loop of [parse_add_file]: both return. *)
Lemma parse_chunk_returns :
  forall n p c,
    remaining p <= n ->
    exists c' q, forall fuel, n < fuel -> parse_chunk fuel p c = Ret (c', q).
Proof.
  induction n as [|n IH]; intros p c Hr.
  - exists c, p. intros [|fuel] Hf; [lia|]. simpl.
    unfold is_done. rewrite remaining_zero by lia. reflexivity.
  - destruct (is_done p ["@@ "; "*** "]) eqn:Hd.
    { exists c, p. intros [|fuel] Hf; [lia|]. simpl. now rewrite Hd. }
    pose proof (not_done_not_at_end _ _ Hd) as He.
    pose proof (remaining_advance p He) as Ha.
    destruct (Str.truthy (current p)) eqn:Ht.
    + destruct (IH (advance p) (add_line (current p) c)) as (c' & q & H);
        [lia|].
      exists c', q. intros [|fuel] Hf; [lia|]. simpl. rewrite Hd.
      unfold read_str. rewrite He, startswith_empty. cbn [bind].
      rewrite Ht. cbn [negb]. apply H. lia.
    + exists c, (advance p). intros [|fuel] Hf; [lia|]. simpl. rewrite Hd.
      unfold read_str. rewrite He, startswith_empty. cbn [bind].
      rewrite Ht. reflexivity.
Qed.

Lemma parse_add_loop_returns :
  forall n p ls,
    remaining p <= n ->
    exists ls' q,
      forall fuel, n < fuel -> parse_add_loop fuel p ls = Ret (ls', q).
Proof.
  induction n as [|n IH]; intros p ls Hr.
  - exists ls, p. intros [|fuel] Hf; [lia|]. simpl.
    unfold is_done. rewrite remaining_zero by lia. reflexivity.
  - destruct (is_done p ["*** "]) eqn:Hd.
    { exists ls, p. intros [|fuel] Hf; [lia|]. simpl. now rewrite Hd. }
    pose proof (not_done_not_at_end _ _ Hd) as He.
    pose proof (remaining_advance p He) as Ha.
    destruct (IH (advance p)
                 (if Str.truthy (Str.drop (String.length "") (current p))
                  then ls ++ [Str.drop (String.length "") (current p)]
                  else ls)) as (ls' & q & H); [lia|].
    exists ls', q. intros [|fuel] Hf; [lia|]. simpl. rewrite Hd.
    unfold read_str. rewrite He, startswith_empty. cbn [bind].
    apply H. lia.
Qed.

(** The loop of [parse_update_file] returns, or it comes to a line that
    it neither passes nor ends at, and then no budget lets it return. *)
Lemma parse_update_loop_ends :
  forall n p a,
    remaining p <= n ->
    (exists a' q,
        forall fuel, n < fuel -> parse_update_loop fuel p a = Ret (a', q))
    \/ ((exists q, follows p q /\ stuck_at q)
        /\ forall fuel, parse_update_loop fuel p a = OutOfFuel).
Proof.
  induction n as [|n IH]; intros p a Hr.
  - left. exists a, p. intros [|fuel] Hf; [lia|]. simpl.
    unfold is_done. rewrite remaining_zero by lia. reflexivity.
  - destruct (is_done p ["*** "]) eqn:Hd.
    { left. exists a, p. intros [|fuel] Hf; [lia|]. simpl. now rewrite Hd. }
    pose proof (not_done_not_at_end _ _ Hd) as He.
    pose proof (remaining_advance p He) as Ha.
    destruct (startswith p "@@ ") eqn:Hs.
    + destruct (parse_chunk_returns n (advance p) (mkChunk 0 [] []))
        as (c & q1 & Hc); [lia|].
      assert (Hq1 : follows (advance p) q1).
      { apply (parse_chunk_follows (S n) _ _ _ _ (Hc (S n) (Nat.lt_succ_diag_r n))). }
      pose proof (remaining_follows _ _ Hq1) as Hr1.
      destruct (IH q1 (add_chunk a c)) as [(a' & q & H)|((q & Hf & Hst) & H)];
        [lia| |].
      * left. exists a', q. intros [|fuel] Hfu; [lia|]. simpl.
        rewrite Hd, Hs, Hc by lia. cbn [bind]. apply H. lia.
      * right. split.
        { exists q. split; [|exact Hst].
          eapply follows_trans; [apply follows_advance|].
          eapply follows_trans; eassumption. }
        intros [|fuel]; [reflexivity|]. simpl. rewrite Hd, Hs.
        destruct (parse_chunk fuel (advance p) (mkChunk 0 [] []))
          as [[c' q']|e|] eqn:E; cbn [bind]; [| |reflexivity].
        -- assert (E' : Ret (c', q') = Ret (c, q1)).
           { destruct (Nat.le_ge_cases fuel (S n)) as [L|L].
             - rewrite <- E, <- (Hc (S n)) by lia.
               symmetry. apply parse_chunk_mono; [exact L|].
               rewrite E. discriminate.
             - rewrite <- E, <- (Hc (S n)) by lia.
               apply parse_chunk_mono; [exact L|].
               rewrite Hc by lia. discriminate. }
           injection E' as -> ->. apply H.
        -- exfalso. exact (parse_chunk_no_raise _ _ _ _ E).
    + right. split.
      * exists p. split; [apply follows_refl|]. split; assumption.
      * intros fuel. now apply parse_update_loop_stuck.
Qed.

Lemma read_str_fuel_free (p : Parser) (pre : string) (b : bool) :
  read_str p pre b <> OutOfFuel.
Proof.
  unfold read_str. destruct (at_end p); [discriminate|].
  destruct (Str.startswith (current p) pre); discriminate.
Qed.

Lemma parse_directive_passes (fuel : nat) (p p1 : Parser) :
  parse_directive fuel p = Ret p1 -> follows p p1 /\ index p < index p1.
Proof.
  intros H.
  apply parse_directive_ret in H
    as (k & a & q & line & -> & (Hl & Hc & Hf & Hi) & _ & Hlt & _).
  split; [|exact Hlt]. repeat split; cbn [lines current_files fuzz index register];
    try assumption.
Qed.

(** One directive: the outcome is the same for every budget above the
    number of lines left, or the body of an Update never ends. *)
Lemma parse_directive_ends (p : Parser) :
  (exists r, r <> OutOfFuel
             /\ forall fuel, remaining p < fuel -> parse_directive fuel p = r)
  \/ ((exists q, follows p q /\ stuck_at q)
      /\ forall fuel, parse_directive fuel p = OutOfFuel).
Proof.
  unfold parse_directive.
  destruct (read_str p "*** Update File: " false) as [[path q1]|e|] eqn:R1;
    cbn [bind].
  2: { left. exists (Raise e). split; [discriminate|reflexivity]. }
  2: { exfalso. exact (read_str_fuel_free _ _ _ R1). }
  pose proof (read_str_follows _ _ _ _ _ R1) as G1.
  destruct (Str.truthy path).
  - destruct (Dict.mem path (patch q1)).
    { left. eexists. split; [|reflexivity]. discriminate. }
    destruct (read_str q1 "*** Move to: " false) as [[mv q2]|e|] eqn:R2;
      cbn [bind].
    2: { left. exists (Raise e). split; [discriminate|reflexivity]. }
    2: { exfalso. exact (read_str_fuel_free _ _ _ R2). }
    pose proof (read_str_follows _ _ _ _ _ R2) as G2.
    destruct (negb (Dict.mem path (current_files q2))).
    { left. eexists. split; [|reflexivity]. discriminate. }
    destruct (Dict.get path (current_files q2)) as [text|].
    2: { left. eexists. split; [|reflexivity]. discriminate. }
    unfold parse_update_file.
    pose proof (remaining_follows _ _ (follows_trans _ _ _ G1 G2)) as Hr.
    destruct (parse_update_loop_ends (remaining q2) q2
                (mkPatchAction UPDATE None [] None) (Nat.le_refl _))
      as [(a' & q & H)|((q & Hf & Hst) & H)].
    + left. eexists. split; [|intros fuel Hfu; rewrite H by lia;
                              cbn [bind]; reflexivity].
      discriminate.
    + right. split.
      * exists q. split; [|exact Hst].
        eapply follows_trans; [exact G1|].
        eapply follows_trans; eassumption.
      * intros fuel. now rewrite H.
  - destruct (read_str q1 "*** Add File: " false) as [[path2 q2]|e|] eqn:R2;
      cbn [bind].
    2: { left. exists (Raise e). split; [discriminate|reflexivity]. }
    2: { exfalso. exact (read_str_fuel_free _ _ _ R2). }
    pose proof (read_str_follows _ _ _ _ _ R2) as G2.
    destruct (Str.truthy path2).
    + destruct (Dict.mem path2 (patch q2)).
      { left. eexists. split; [|reflexivity]. discriminate. }
      unfold parse_add_file.
      pose proof (remaining_follows _ _ (follows_trans _ _ _ G1 G2)) as Hr.
      destruct (parse_add_loop_returns (remaining q2) q2 [] (Nat.le_refl _))
        as (ls' & q & H).
      left. eexists. split; [|intros fuel Hfu; rewrite H by lia;
                                cbn [bind]; reflexivity].
      discriminate.
    + destruct (read_str q2 "*** Delete File: " false)
        as [[path3 q3]|e|] eqn:R3; cbn [bind].
      2: { left. exists (Raise e). split; [discriminate|reflexivity]. }
      2: { exfalso. exact (read_str_fuel_free _ _ _ R3). }
      destruct (Str.truthy path3).
      * destruct (Dict.mem path3 (patch q3)).
        { left. eexists. split; [|reflexivity]. discriminate. }
        destruct (negb (Dict.mem path3 (current_files q3)));
          left; eexists; (split; [|reflexivity]); discriminate.
      * destruct (at_end q3);
          left; eexists; (split; [|reflexivity]); discriminate.
Qed.

(** The outcome of a directive that does not depend on the budget is the
    outcome for every budget that gives one. *)
Lemma parse_directive_same (p : Parser) (r : Outcome Parser) (f f' : nat) :
  parse_directive f p = r -> r <> OutOfFuel ->
  parse_directive f' p <> OutOfFuel ->
  parse_directive f' p = r.
Proof.
  intros H Hne Hne'. destruct (Nat.le_ge_cases f f') as [L|L].
  - rewrite <- H. apply parse_directive_mono; [exact L|]. now rewrite H.
  - rewrite <- H. symmetry. now apply parse_directive_mono.
Qed.

(** The loop of [parse]. *)
Lemma parse_loop_ends :
  forall n p,
    remaining p <= n ->
    (exists r, r <> OutOfFuel
               /\ forall fuel, S n < fuel -> parse_loop fuel p = r)
    \/ ((exists q, follows p q /\ stuck_at q)
        /\ forall fuel, parse_loop fuel p = OutOfFuel).
Proof.
  induction n as [|n IH]; intros p Hr.
  - left. exists (Ret p). split; [discriminate|].
    intros [|fuel] Hf; [lia|]. simpl.
    unfold is_done. rewrite remaining_zero by lia. reflexivity.
  - destruct (is_done p ["*** End Patch"]) eqn:Hd.
    { left. exists (Ret p). split; [discriminate|].
      intros [|fuel] Hf; [lia|]. simpl. now rewrite Hd. }
    pose proof (not_done_not_at_end _ _ Hd) as He.
    destruct (parse_directive_ends p) as [(r & Hne & H)|(Hq & H)].
    + destruct r as [p1|e|]; [| |congruence].
      * pose proof (H (S (remaining p)) (Nat.lt_succ_diag_r _)) as H1.
        destruct (parse_directive_passes _ _ _ H1) as [Hf Hlt].
        assert (Hr1 : remaining p1 <= n).
        { destruct Hf as (Hl & _). unfold remaining in *. rewrite Hl.
          unfold at_end in He. apply Nat.leb_gt in He. lia. }
        destruct (IH p1 Hr1) as [(r' & Hne' & H')|((q & Hfq & Hst) & H')].
        -- left. exists r'. split; [exact Hne'|].
           intros [|fuel] Hfu; [lia|]. simpl. rewrite Hd.
           rewrite H by lia. cbn [bind]. apply H'. lia.
        -- right. split.
           { exists q. split; [|exact Hst].
             eapply follows_trans; eassumption. }
           intros [|fuel]; [reflexivity|]. simpl. rewrite Hd.
           destruct (parse_directive fuel p) as [p1'|e|] eqn:E;
             cbn [bind]; [| |reflexivity].
           ++ assert (E' : parse_directive fuel p = Ret p1).
              { apply (parse_directive_same p _ _ _ H1);
                  [discriminate|rewrite E; discriminate]. }
              rewrite E in E'. injection E' as ->. apply H'.
           ++ assert (E' : parse_directive fuel p = Ret p1).
              { apply (parse_directive_same p _ _ _ H1);
                  [discriminate|rewrite E; discriminate]. }
              rewrite E in E'. discriminate.
      * left. exists (Raise e). split; [discriminate|].
        intros [|fuel] Hfu; [lia|]. simpl. rewrite Hd.
        rewrite H by lia. reflexivity.
    + right. split; [exact Hq|].
      intros [|fuel]; [reflexivity|]. simpl. now rewrite Hd, H.
Qed.

(** X13. The parser returns a patch or raises an error within a number
    of iterations bounded by the number of lines of the text, or it
    never does: the only loop that can fail to end is the one of
    [parse_update_file], at a line of an Update body that starts with
    neither the hunk marker nor the directive marker. *)
Theorem parser_returns_or_never (text : string) (orig : Dict.t string) :
  (exists r, r <> OutOfFuel
             /\ forall fuel,
                 List.length (Str.splitlines text) + 2 <= fuel ->
                 text_to_patch fuel text orig = r)
  \/ ((exists q, lines q = Str.splitlines text /\ stuck_at q)
      /\ forall fuel, text_to_patch fuel text orig = OutOfFuel).
Proof.
  unfold text_to_patch.
  destruct (negb (Str.startswith text "*** Begin Patch")).
  { left. eexists. split; [|reflexivity]. discriminate. }
  unfold parse.
  set (p0 := if startswith (new_Parser orig (Str.splitlines text))
                           "*** Begin Patch"
             then advance (new_Parser orig (Str.splitlines text))
             else new_Parser orig (Str.splitlines text)).
  assert (Hl : lines p0 = Str.splitlines text).
  { unfold p0. destruct (startswith _ _); reflexivity. }
  assert (Hr : remaining p0 <= List.length (Str.splitlines text)).
  { unfold remaining. rewrite Hl. lia. }
  destruct (parse_loop_ends _ p0 Hr)
    as [(r & Hne & H)|((q & (Hq & _) & Hst) & H)].
  - destruct r as [p'|e|]; [| |congruence].
    + left. exists (Ret (patch p', fuzz p')). split; [discriminate|].
      intros fuel Hf. rewrite H by lia. reflexivity.
    + left. exists (Raise e). split; [discriminate|].
      intros fuel Hf. rewrite H by lia. reflexivity.
  - right. split.
    + exists q. split; [congruence|exact Hst].
    + intros fuel. now rewrite H.
Qed.

Lemma prefix_shorter (a b s : string) :
  String.prefix (String.append a b) s = true -> String.prefix a s = true.
Proof.
  revert s. induction a as [|c a IH]; intros s; simpl;
    [destruct s; reflexivity|].
  destruct s as [|c' s]; simpl; [discriminate|].
  destruct (ascii_dec c c'); [apply IH|discriminate].
Qed.

(** X14. An Update directive for a file of the snapshot, followed by a
    line that starts with neither the hunk marker nor the directive
    marker, is never passed: whatever the budget of iterations, the loop
    of [parse] gives no patch and no error. An empty line after the
    directive is such a line. *)
Theorem update_stray_line_hangs (p : Parser) (path : string) :
  at_directive p UpdateFile path ->
  Dict.mem path (patch p) = false ->
  Dict.mem path (current_files p) = true ->
  stuck_at (advance p) ->
  forall fuel, parse_loop fuel p = OutOfFuel.
Proof.
  intros Hat Hm Hs [Hd Hst] [|fuel]; [reflexivity|].
  cbn [parse_loop]. rewrite (at_directive_not_done _ _ _ Hat).
  destruct Hat as (He & Hc & Ht). unfold directive_prefix in Hc.
  unfold parse_directive.
  rewrite (read_str_prefix p _ path He Hc). cbn [bind]. rewrite Ht.
  cbn [patch advance]. rewrite Hm.
  pose proof (not_done_not_at_end _ _ Hd) as He'.
  assert (Hmv : Str.startswith (current (advance p)) "*** Move to: " = false).
  { destruct (Str.startswith (current (advance p)) "*** Move to: ") eqn:E;
      [|reflexivity].
    apply (prefix_shorter "*** " "Move to: ") in E.
    unfold is_done in Hd. rewrite He' in Hd. cbn [existsb andb] in Hd.
    unfold Str.startswith in Hd. rewrite E in Hd. discriminate. }
  rewrite (read_str_mismatch _ _ He' Hmv). cbn [bind].
  cbn [current_files advance]. rewrite Hs. cbn [negb].
  destruct (mem_get _ _ Hs) as [text ->].
  unfold parse_update_file.
  rewrite (parse_update_loop_stuck fuel _ _ Hd Hst). reflexivity.
Qed.

Lemma update_stray_line_hangs_witness :
  current (seek (new_Parser scenario_snapshot blank_body_lines) 2) = ""
  /\ (forall fuel,
         parse_loop fuel
                    (seek (new_Parser scenario_snapshot blank_body_lines) 1)
         = OutOfFuel).
Proof.
  split; [reflexivity|].
  apply (update_stray_line_hangs
           (seek (new_Parser scenario_snapshot blank_body_lines) 1) "a.py").
  - repeat split.
  - reflexivity.
  - reflexivity.
  - split; reflexivity.
Defined.

(** ** Updates that change nothing *)

Lemma append_empty (s : string) : String.append s "" = s.
Proof. induction s as [|c s IH]; simpl; [reflexivity|now rewrite IH]. Qed.

Lemma append_append (a b c : string) :
  String.append (String.append a b) c = String.append a (String.append b c).
Proof. induction a as [|x a IH]; simpl; [reflexivity|now rewrite IH]. Qed.

Lemma splitlines_from_not_nil :
  forall s acc,
    Str.truthy acc = true \/ Str.truthy s = true ->
    Str.splitlines_from acc s <> [].
Proof.
  induction s as [|c r IH]; intros acc H; simpl.
  - destruct H as [H|H]; [rewrite H|]; discriminate.
  - destruct (Str.is_linebreak c).
    + destruct r as [|c' r']; [discriminate|].
      destruct (Str.is_cr c && Str.is_lf c'); discriminate.
    + apply IH. left. destruct acc; reflexivity.
Qed.

Lemma join_cons (x : string) (l : list string) :
  l <> [] ->
  Str.join Str.LF (x :: l)
  = String.append x (String.append Str.LF (Str.join Str.LF l)).
Proof. destruct l; [congruence|reflexivity]. Qed.

Lemma lf_char (c : ascii) :
  Str.is_lf c = true -> c = ascii_of_nat 10.
Proof.
  unfold Str.is_lf. intros H. apply Nat.eqb_eq in H.
  rewrite <- (ascii_nat_embedding c), H. reflexivity.
Qed.

(** The lines of a text whose only boundary is the line feed, joined with
    line feeds and closed by one where the text is, are the text. *)
Lemma join_splitlines_from :
  forall s acc,
    lf_only s = true -> clean acc = true ->
    String.append (Str.join Str.LF (Str.splitlines_from acc s))
                  (if Str.endswith (String.append acc s) Str.LF
                   then Str.LF else "")
    = String.append acc s.
Proof.
  induction s as [|c r IH]; intros acc Hs Hacc.
  - rewrite append_empty. simpl. destruct (Str.truthy acc) eqn:Ht.
    + rewrite (clean_not_endswith _ Ht Hacc). simpl.
      now rewrite append_empty.
    + destruct acc; [reflexivity|discriminate].
  - simpl in Hs. apply andb_true_iff in Hs as [Hc Hr].
    cbn [Str.splitlines_from]. destruct (Str.is_linebreak c) eqn:Hb.
    + cbn [negb orb] in Hc. apply lf_char in Hc. subst c.
      destruct r as [|c' r'].
      * change (String (ascii_of_nat 10) "") with Str.LF.
        rewrite endswith_append_LF. reflexivity.
      * change (Str.is_cr (ascii_of_nat 10)) with false. cbn [andb].
        rewrite join_cons
          by (apply splitlines_from_not_nil; right; reflexivity).
        rewrite endswith_append by reflexivity.
        rewrite endswith_LF_step.
        specialize (IH "" Hr eq_refl). cbn [String.append] in IH.
        rewrite !append_append. rewrite IH. reflexivity.
    + assert (Hacc' : clean (String.append acc (String c "")) = true).
      { rewrite clean_append, Hacc. simpl. now rewrite Hb. }
      specialize (IH _ Hr Hacc'). rewrite append_append in IH.
      exact IH.
Qed.

Lemma rebuilt_splitlines (text : string) :
  lf_only text = true -> rebuilt text (Str.splitlines text) = text.
Proof.
  intros H. pose proof (join_splitlines_from text "" H eq_refl) as J.
  cbn [String.append] in J. unfold rebuilt, Str.splitlines.
  destruct (Str.endswith text Str.LF); [exact J|].
  now rewrite append_empty in J.
Qed.

Lemma occurs_at_splice (ls del : list string) (i : nat) :
  occurs_at ls del i ->
  firstn i ls ++ del ++ skipn (i + List.length del) ls = ls.
Proof.
  unfold occurs_at. intros H. remember (List.length del) as n eqn:Hn.
  rewrite Nat.add_comm, <- skipn_skipn, <- H, firstn_skipn.
  apply firstn_skipn.
Qed.

Lemma apply_chunks_keeps (ls : list string) (path : string) :
  forall cs, Forall (keeps ls) cs -> apply_chunks ls path cs ls = Ret ls.
Proof.
  induction cs as [|c cs IH]; intros Hall; [reflexivity|].
  inversion Hall as [|c' cs' [Hins [k Hk]] Hrest]; subst.
  destruct (occurrence_has_first _ _ _ Hk) as [i Hi].
  simpl. rewrite (find_context_located _ _ _ Hi), slice_assign_span.
  rewrite Hins, (occurs_at_splice _ _ _ (proj1 Hi)). now apply IH.
Qed.

(** X15. An Update whose hunks only repeat lines of the file (no hunk at
    all, or hunks of context lines that occur in the file) gives back the
    content of the file as it is, when the only line boundary of the
    content is the line feed. *)
Theorem unchanged_update_keeps_text (text path : string)
        (action : PatchAction) :
  lf_only text = true ->
  type action = UPDATE ->
  Forall (keeps (Str.splitlines text)) (chunks action) ->
  _get_updated_file text action path = Ret text.
Proof.
  intros Hlf Ht Hall. unfold _get_updated_file. rewrite Ht.
  rewrite (apply_chunks_keeps _ path _ Hall). cbn [bind].
  pose proof (rebuilt_splitlines text Hlf) as R. unfold rebuilt in R.
  destruct (Str.endswith text Str.LF); now rewrite R.
Qed.

Lemma unchanged_update_keeps_text_witness :
  _get_updated_file lf_text (update_of [mkChunk 0 ["b"] ["b"]]) "f"
  = Ret lf_text
  /\ _get_updated_file crlf_text (update_of []) "f" = Ret lf_text.
Proof.
  split; [|reflexivity].
  apply (unchanged_update_keeps_text lf_text "f"
           (update_of [mkChunk 0 ["b"] ["b"]])).
  - reflexivity.
  - reflexivity.
  - repeat constructor. exists 1. reflexivity.
Defined.

(** ** Outcomes of the commit builder *)

(** X16. For every patch and snapshot [patch_to_commit] ends in one of
    three ways: it returns a commit; it raises the key error for the path
    of an Update or Delete action that the snapshot does not hold; or it
    fails to apply a chunk of an Update action, one of whose chunks has
    [del_lines] that occur nowhere in the file. It never raises the
    error for an invalid action type. *)
Theorem commit_builder_outcomes (pt : Patch) (orig : Dict.t string) :
  (exists commit, patch_to_commit pt orig = Ret commit)
  \/ (exists path a,
         In (path, a) pt /\ type a <> ADD /\ Dict.get path orig = None
         /\ patch_to_commit pt orig = Raise (EKey path))
  \/ (exists path a old,
         In (path, a) pt /\ type a = UPDATE
         /\ Dict.get path orig = Some old
         /\ Exists (fun c => forall k,
                        ~ occurs_at (Str.splitlines old) (del_lines c) k)
                   (chunks a)
         /\ patch_to_commit pt orig
            = Raise (EDiff (FailedToApplyChunk path))).
Proof.
  unfold patch_to_commit. generalize (Dict.empty : Commit).
  induction pt as [|[k a] rest IH]; intros commit.
  { left. exists commit. reflexivity. }
  assert (Hstep : forall c',
             (exists c, build_changes orig rest c' = Ret c)
             \/ (exists path a0,
                    In (path, a0) ((k, a) :: rest) /\ type a0 <> ADD
                    /\ Dict.get path orig = None
                    /\ build_changes orig rest c' = Raise (EKey path))
             \/ (exists path a0 old,
                    In (path, a0) ((k, a) :: rest) /\ type a0 = UPDATE
                    /\ Dict.get path orig = Some old
                    /\ Exists (fun c => forall i,
                                   ~ occurs_at (Str.splitlines old)
                                       (del_lines c) i)
                              (chunks a0)
                    /\ build_changes orig rest c'
                       = Raise (EDiff (FailedToApplyChunk path)))).
  { intros c'.
    destruct (IH c') as [Hok|[(path & a0 & Hin & H)
                             |(path & a0 & old & Hin & H)]].
    - left. exact Hok.
    - right. left. exists path, a0. split; [right; exact Hin|exact H].
    - right. right. exists path, a0, old.
      split; [right; exact Hin|exact H]. }
  simpl. destruct (type a) eqn:Ht.
  - apply Hstep.
  - unfold lookup. destruct (Dict.get k orig) as [old|] eqn:Hold;
      cbn [bind]; [apply Hstep|].
    right. left. exists k, a. rewrite Ht.
    repeat split; try assumption; [left; reflexivity|discriminate].
  - unfold lookup. destruct (Dict.get k orig) as [old|] eqn:Hold;
      cbn [bind].
    + pose proof (get_updated_file_outcome old a k Ht) as Hout.
      destruct (_get_updated_file old a k) as [new|e|]; cbn [bind].
      * apply Hstep.
      * destruct Hout as [-> Hex]. right. right. exists k, a, old.
        repeat split; try assumption. left. reflexivity.
      * contradiction.
    + right. left. exists k, a. rewrite Ht.
      repeat split; try assumption; [left; reflexivity|discriminate].
Qed.

(** The builder on a Delete of a path that the snapshot does not hold:
    the key error, not one of the errors of the patch engine. *)
Example delete_unknown_key_error :
  patch_to_commit delete_unknown [] = Raise (EKey "gone.py").
Proof. reflexivity. Qed.

(** ** Add File and the snapshot *)

Lemma read_str_with_files (cf : Dict.t string) (p : Parser) (pre : string)
      (b : bool) :
  read_str (with_files cf p) pre b
  = match read_str p pre b with
    | Ret (s, q) => Ret (s, with_files cf q)
    | Raise e => Raise e
    | OutOfFuel => OutOfFuel
    end.
Proof.
  unfold read_str, at_end, current. cbn [lines index with_files].
  destruct (List.length (lines p) <=? index p); [reflexivity|].
  destruct (Str.startswith _ pre); reflexivity.
Qed.

Lemma parse_add_loop_with_files (cf : Dict.t string) :
  forall fuel p ls,
    parse_add_loop fuel (with_files cf p) ls
    = match parse_add_loop fuel p ls with
      | Ret (ls', q) => Ret (ls', with_files cf q)
      | Raise e => Raise e
      | OutOfFuel => OutOfFuel
      end.
Proof.
  induction fuel as [|fuel IH]; intros p ls; [reflexivity|].
  cbn [parse_add_loop].
  change (is_done (with_files cf p) ["*** "]) with (is_done p ["*** "]).
  destruct (is_done p ["*** "]); [reflexivity|].
  rewrite read_str_with_files.
  destruct (read_str p "" false) as [[line q]|e|]; cbn [bind];
    [apply IH|reflexivity|reflexivity].
Qed.

(** X17. An Add File directive never consults the snapshot: whatever the
    snapshot holds, under the path of the directive or any other, the
    directive is parsed to the same outcome, and the parser is left with
    the same lines passed and the same actions registered. *)
Theorem add_ignores_snapshot (p : Parser) (path : string)
        (cf : Dict.t string) (fuel : nat) :
  at_directive p AddFile path ->
  parse_directive fuel (with_files cf p)
  = over_files cf (parse_directive fuel p).
Proof.
  intros (He & Hc & Ht). unfold directive_prefix in Hc.
  assert (He' : at_end (with_files cf p) = false) by exact He.
  assert (Hc' : current (with_files cf p) = String.append "*** Add File: " path)
    by exact Hc.
  unfold parse_directive.
  not_prefix (with_files cf p) "*** Update File: " He' Hc'.
  not_prefix p "*** Update File: " He Hc.
  rewrite (read_str_prefix _ _ path He' Hc').
  rewrite (read_str_prefix _ _ path He Hc). cbn [bind]. rewrite Ht.
  change (patch (advance (with_files cf p))) with (patch (advance p)).
  destruct (Dict.mem path (patch (advance p))); [reflexivity|].
  unfold parse_add_file.
  change (advance (with_files cf p)) with (with_files cf (advance p)).
  rewrite parse_add_loop_with_files.
  destruct (parse_add_loop fuel (advance p) []) as [[ls q]|e|]; cbn [bind];
    reflexivity.
Qed.

Lemma add_ignores_snapshot_witness :
  Dict.mem "a.py" scenario_snapshot = true
  /\ parse_directive 4 (with_files scenario_snapshot
                          (seek (new_Parser [] add_over_lines) 1))
     = over_files scenario_snapshot
         (parse_directive 4 (seek (new_Parser [] add_over_lines) 1))
  /\ patch_to_commit
       (fst (match text_to_patch 4 (Str.unlines add_over_lines)
                                 scenario_snapshot with
             | Ret r => r
             | _ => ([], 0)
             end)) scenario_snapshot
     = Ret [("a.py", mkFileChange ADD None (Some "new") None)].
Proof.
  split; [reflexivity|]. split; [|reflexivity].
  apply (add_ignores_snapshot (seek (new_Parser [] add_over_lines) 1) "a.py").
  repeat split.
Defined.
